(** * Speleo: site percolation by stack-based cave exploration

    A shallow embedding of [src/Speleo/src/main.cpp] and the properties of
    its traversal, sampling and sweep control.

    Conventions of the embedding:
    - the C++ [int] is [Z]; every value the program computes on a cave of
      side [size <= INT_MAX] with coordinates in [0, size) stays in
      [-1, INT_MAX], so no signed overflow is modelled;
    - [double] is the kernel's binary64 [float];
    - [std::vector] is [list], indexed with stdpp's lookup; an index out of
      range is undefined behaviour in C++ and [Undefined] here;
    - [std::stack] is [list], top of the stack first;
    - the object's fields are a record threaded through its methods;
    - the [while] loops that are not counting loops take fuel. *)

From Stdlib Require Import ZArith Bool Lia QArith Floats.
From stdpp Require Import base tactics option list list_numbers.

#[local] Open Scope Z_scope.

(** ** Results of partial computations *)

Inductive result (T : Type) : Type :=
| Ok (v : T)
| Undefined
| OutOfFuel.
Arguments Ok {T} v.
Arguments Undefined {T}.
Arguments OutOfFuel {T}.

#[global] Instance result_ret : MRet result := fun _ v => Ok v.
#[global] Instance result_bind : MBind result := fun _ _ f m =>
  match m with
  | Ok v => f v
  | Undefined => Undefined
  | OutOfFuel => OutOfFuel
  end.

#[global] Instance result_fmap : FMap result := fun _ _ f m =>
  match m with
  | Ok v => Ok (f v)
  | Undefined => Undefined
  | OutOfFuel => OutOfFuel
  end.

Definition of_option {T : Type} (o : option T) : result T :=
  match o with
  | Some v => Ok v
  | None => Undefined
  end.

Definition is_Ok {T : Type} (r : result T) : Prop := exists v, r = Ok v.

(** [v[i]] for a vector [v] and an [int] index [i]. *)
Definition at_ {T : Type} (v : list T) (i : Z) : option T :=
  if decide (0 <= i) then v !! Z.to_nat i else None.

(** [for(int i{0}; i < n; ++i) body] over a state that may fail. *)
Definition for_int {St : Type} (n : Z) (body : Z -> St -> result St) (s : St)
  : result St :=
  foldl (fun acc i => acc ≫= body i) (Ok s) (seqZ 0 n).

(** ** Globals *)

Definition INT_MAX : Z := 2147483647.
Definition ENTRY : Z := 0.

(** The execution mode: [exec_mode] holds one of the characters [A], [B],
    [C] once the constructor's [BoundedValue] prompt has returned. *)
Inductive Mode : Set := A | B | C.

#[global] Instance Mode_eq_dec : EqDecision Mode.
Proof. solve_decision. Defined.

(** ** prompt_user *)

Module prompt_user.


End prompt_user.

(** ** Region *)

Module Region.

Record t : Set := Build {
  y : Z;
  x : Z;
  obstructed : bool;
  discovered : bool
}.

(** The constructor [Region(int y, int x, bool obstructed)]. *)
Definition new (y x : Z) (obstructed : bool) : t :=
  {| y := y; x := x; obstructed := obstructed; discovered := false |}.

Definition IsAccessible (r : t) : bool := negb (obstructed r).
Definition IsUnknown (r : t) : bool := negb (discovered r).

(** The assignment [region.discovered = true]. *)
Definition mark (r : t) : t :=
  {| y := y r; x := x r; obstructed := obstructed r; discovered := true |}.

Definition pos (r : t) : Z * Z := (y r, x r).

End Region.

#[global] Instance Region_eq_dec : EqDecision Region.t.
Proof. solve_decision. Defined.

(** ** Map *)

Module Map.

Record t : Set := Build {
  map : list (list Region.t);
  size : Z
}.

(** [cave[i][j]], read. *)
Definition get (c : t) (i j : Z) : option Region.t :=
  at_ (map c) i ≫= fun strip => at_ strip j.

(** [cave[i][j] = r], through the reference [cave[i][j]]. *)
Definition set (c : t) (i j : Z) (r : Region.t) : t :=
  {| map := alter (fun strip => <[Z.to_nat j := r]> strip) (Z.to_nat i) (map c);
     size := size c |}.

End Map.

(** ** The exploration stack and its history *)

(** A push onto [regions_to_scout]: the region pushed (a copy, as
    [std::stack<Region>] holds values) and where the push came from, [None]
    for the entry loop and [Some (y, x)] for a neighbour of the region
    [(y, x)] that was just popped. *)
Record push_event : Set := Pushed {
  origin : option (Z * Z);
  pushed : Region.t
}.

(** What the lambda [ScoutRegion] captures by reference: the stack. The
    field [history] is a history variable: the pushes so far, latest first.
    No function below reads it. *)
Record scout : Set := Scout {
  regions_to_scout : list Region.t;
  history : list push_event
}.

(** [regions_to_scout.push(r)], recorded as coming from [from]. *)
Definition push (from : option (Z * Z)) (r : Region.t) (s : scout) : scout :=
  {| regions_to_scout := r :: regions_to_scout s;
     history := Pushed from r :: history s |}.

(** [regions_to_scout.pop()]. *)
Definition pop (s : scout) : scout :=
  {| regions_to_scout := tail (regions_to_scout s); history := history s |}.

(** The lambda [ScoutRegion], as a function of the region its parameter
    refers to: the region after the call and the stack after the call. *)
Definition ScoutRegion (from : option (Z * Z)) (region : Region.t) (s : scout)
  : Region.t * scout :=
  if Region.IsAccessible region && Region.IsUnknown region then
    let region' := Region.mark region in
    (region', push from region' s)
  else (region, s).

(** [ScoutRegion(region)] where [region] is a local copy ([for(auto region :
    ...)]): the change to the copy is lost with it. *)
Definition ScoutRegion_copy (region : Region.t) (s : scout) : scout :=
  snd (ScoutRegion None region s).

(** [ScoutRegion(cave[i][j])]: the parameter is bound to the cave's own
    region, which receives the change. *)
Definition ScoutRegion_ref (from : Z * Z) (i j : Z) (cs : Map.t * scout)
  : result (Map.t * scout) :=
  match Map.get cs.1 i j with
  | None => Undefined
  | Some region =>
      let (region', s') := ScoutRegion (Some from) region cs.2 in
      Ok (Map.set cs.1 i j region', s')
  end.

(** The regions a [ScoutRegion] call still accepts, and their number. *)
Definition scoutable (r : Region.t) : bool :=
  Region.IsAccessible r && Region.IsUnknown r.

Definition unscouted_in (strip : list Region.t) : nat :=
  length (filter (fun r => scoutable r = true) strip).

Definition unscouted (c : Map.t) : nat :=
  sum_list_with unscouted_in (Map.map c).

(** ** The random source *)

(** [Bernouilli] draws from one engine for the whole process (a function
    static seeded once from [std::random_device]). The engine is a state
    [G]; [canonical] is the draw [std::bernoulli_distribution] makes from
    it, a [double] of the unit interval [0, 1) (libstdc++ and libc++ both
    compare [generate_canonical] with [p]). *)
Class RandomEngine (G : Type) : Type := canonical : G -> float * G.


Definition Bernouilli `{RandomEngine G} (p : float) (g : G) : bool * G :=
  let (u, g') := canonical g in (PrimFloat.ltb u p, g').

(** The literal [0.01]: the binary64 value nearest to 1/100. *)
Definition one_percent : float := 0x1.47ae147ae147bp-7%float.

(** ** What the program prints *)

Inductive output : Type :=
| ExitFound                      (* "Exit found\n" *)
| ExitNotFound                   (* "Exit NOT found\n" *)
| Paths (rows : list (list Z))   (* DisplayPaths: one 0/1 per region *)
| Success (accessibility : float) (successful_attempts sample_size : Z).
    (* "Success for accessibility p is " double(successful_attempts)/sample_size *)

(** The value [double(successful_attempts)/sample_size] of a [Success]
    line, before rounding to binary64: both operands are [int]s, which
    binary64 holds exactly, and the printed quotient is this rational
    rounded once. *)
Definition rate (successful_attempts sample_size : Z) : Q :=
  (inject_Z successful_attempts / inject_Z sample_size)%Q.

(** ** Speleo *)

Module Speleo.

Record t : Type := Build {
  exec_mode : Mode;
  sample_size : Z;
  accessibility : float;
  cave : Map.t;
  successful_attempts : Z
}.

Definition set_cave (sp : t) (c : Map.t) : t :=
  {| exec_mode := exec_mode sp; sample_size := sample_size sp;
     accessibility := accessibility sp; cave := c;
     successful_attempts := successful_attempts sp |}.

Definition set_successful_attempts (sp : t) (n : Z) : t :=
  {| exec_mode := exec_mode sp; sample_size := sample_size sp;
     accessibility := accessibility sp; cave := cave sp;
     successful_attempts := n |}.

Definition set_accessibility (sp : t) (p : float) : t :=
  {| exec_mode := exec_mode sp; sample_size := sample_size sp;
     accessibility := p; cave := cave sp;
     successful_attempts := successful_attempts sp |}.

Definition set_exec_mode (sp : t) (m : Mode) : t :=
  {| exec_mode := m; sample_size := sample_size sp;
     accessibility := accessibility sp; cave := cave sp;
     successful_attempts := successful_attempts sp |}.

(** [cave.map.push_back(strip)]. *)
Definition push_strip (c : Map.t) (strip : list Region.t) : Map.t :=
  {| Map.map := Map.map c ++ [strip]; Map.size := Map.size c |}.

(** [std::cin >> tmp] for a [bool tmp]: the next value of the input, and
    [Undefined] once the input is exhausted ([tmp] is then read
    uninitialised). *)
Definition read_bool (cin : list bool) : result (bool * list bool) :=
  match cin with
  | tmp :: cin' => Ok (tmp, cin')
  | [] => Undefined
  end.

Definition ReadMapFromConsole (sp : t) (cin : list bool) : result (t * list bool) :=
  for_int (Map.size (cave sp))
    (fun y '(sp, cin) =>
       '(strip, cin) ← for_int (Map.size (cave sp))
          (fun x '(strip, cin) =>
             '(tmp, cin) ← read_bool cin;
             Ok (strip ++ [Region.new y x tmp], cin))
          ([], cin);
       Ok (set_cave sp (push_strip (cave sp) strip), cin))
    (sp, cin).

Definition GenerateMap `{RandomEngine G} (sp : t) (g : G) : result (t * G) :=
  for_int (Map.size (cave sp))
    (fun y '(sp, g) =>
       '(strip, g) ← for_int (Map.size (cave sp))
          (fun x '(strip, g) =>
             let (b, g) := Bernouilli (1 - accessibility sp)%float g in
             Ok (strip ++ [Region.new y x b], g))
          ([], g);
       Ok (set_cave sp (push_strip (cave sp) strip), g))
    (sp, g).

(** [cave.map.clear()]. *)
Definition ResetMap (sp : t) : t :=
  set_cave sp {| Map.map := []; Map.size := Map.size (cave sp) |}.

(** The entry loop: [for(auto region : cave[ENTRY]) ScoutRegion(region)],
    over copies of the regions of the first strip. *)
Definition entries (sp : t) : result scout :=
  strip ← of_option (at_ (Map.map (cave sp)) ENTRY);
  Ok (foldl (fun s region => ScoutRegion_copy region s)
        {| regions_to_scout := []; history := [] |} strip).

(** [if(cond) ScoutRegion(cave[i][j])]. *)
Definition scout_if (cond : bool) (from : Z * Z) (i j : Z) (cs : Map.t * scout)
  : result (Map.t * scout) :=
  if cond then ScoutRegion_ref from i j cs else Ok cs.

Inductive flow : Set := Continue | Break.

(** One pass through the body of the [while] loop, entered with [region]
    on top of the stack [s]. *)
Definition iteration (sp : t) (region : Region.t) (s : scout)
  : result (flow * (t * scout)) :=
  let y := Region.y region in
  let x := Region.x region in
  let exit_found := bool_decide (y + 1 = Map.size (cave sp)) in
  let sp :=
    if exit_found
    then set_successful_attempts sp (successful_attempts sp + 1)
    else sp in
  if exit_found && negb (bool_decide (exec_mode sp = A)) then
    Ok (Break, (sp, s))
  else
    let s := pop s in
    let size := Map.size (cave sp) in
    cs ← scout_if (bool_decide (y - 1 >= 0)) (y, x) (y - 1) x (cave sp, s);
    cs ← scout_if (bool_decide (x + 1 < size)) (y, x) y (x + 1) cs;
    cs ← scout_if (bool_decide (x - 1 >= 0)) (y, x) y (x - 1) cs;
    cs ← scout_if (bool_decide (y + 1 < size)) (y, x) (y + 1) x cs;
    Ok (Continue, (set_cave sp cs.1, cs.2)).

(** [while(!regions_to_scout.empty()) ...]. *)
Fixpoint explore (fuel : nat) (sp : t) (s : scout) : result (t * scout) :=
  match fuel with
  | O => OutOfFuel
  | S fuel =>
      match regions_to_scout s with
      | [] => Ok (sp, s)
      | region :: _ =>
          match iteration sp region s with
          | Ok (Continue, (sp, s)) => explore fuel sp s
          | Ok (Break, (sp, s)) => Ok (sp, s)
          | Undefined => Undefined
          | OutOfFuel => OutOfFuel
          end
      end
  end.


(** Fuel for the [while] loop: every pass pops one region, and every push
    of the loop marks one region of the cave. *)
Definition fuel_for (sp : t) (s : scout) : nat :=
  S (length (regions_to_scout s) + unscouted (cave sp)).

(** [AttemptCaveTraverse] with its local [regions_to_scout] still in
    view when it returns. *)
Definition traverse (sp : t) : result (t * scout) :=
  s ← entries sp;
  explore (fuel_for sp s) sp s.

Definition AttemptCaveTraverse (sp : t) : result t :=
  fst <$> traverse sp.

(** [DisplayPaths]: for every region, [!region.discovered] as [0] or [1]. *)
Definition DisplayPaths (sp : t) : list (list Z) :=
  (fun strip : list Region.t =>
     (fun region => Z.b2z (negb (Region.discovered region))) <$> strip)
    <$> Map.map (cave sp).

(** One pass of the sample loop of case [B]. *)
Definition sample `{RandomEngine G} (st : t * G) : result (t * G) :=
  '(sp, g) ← GenerateMap st.1 st.2;
  sp ← AttemptCaveTraverse sp;
  Ok (ResetMap sp, g).

(** [Run] entered with [exec_mode = B]. *)
Definition Run_B `{RandomEngine G} (sp : t) (g : G) : result (t * G * list output) :=
  let sp := set_successful_attempts sp 0 in
  '(sp, g) ← for_int (sample_size sp) (fun _ st => sample st) (sp, g);
  Ok (sp, g, [Success (accessibility sp) (successful_attempts sp) (sample_size sp)]).

(** The loop of case [C] from its test on: [accessibility <= 1.0], the
    body [Speleo::Run()], which finds [exec_mode = B], then
    [accessibility += 0.01]. *)
Fixpoint sweep `{RandomEngine G} (fuel : nat) (sp : t) (g : G) (out : list output)
  : result (t * G * list output) :=
  match fuel with
  | O => OutOfFuel
  | S fuel =>
      if PrimFloat.leb (accessibility sp) 1%float then
        '(sp, g, out') ← Run_B sp g;
        sweep fuel (set_accessibility sp (accessibility sp + one_percent)%float) g
          (out ++ out')
      else Ok (sp, g, out)
  end.

(** Fuel for the loop of case [C]. *)
Definition sweep_fuel : nat := 128.

Definition Run `{RandomEngine G} (sp : t) (g : G) : result (t * G * list output) :=
  let sp := set_successful_attempts sp 0 in
  match exec_mode sp with
  | A =>
      sp ← AttemptCaveTraverse sp;
      Ok (sp, g,
          [if bool_decide (successful_attempts sp > 0) then ExitFound else ExitNotFound;
           Paths (DisplayPaths sp)])
  | B => Run_B sp g
  | C =>
      sweep sweep_fuel (set_exec_mode (set_accessibility sp 0%float) B) g []
  end.

(** The constructor, with the values its prompts return: the mode, the
    cave size, and by mode the map typed in, or the accessibility and the
    sample size. A field the constructor leaves unset is never read in that
    mode; it is [0] here. *)
Definition new (mode : Mode) (size : Z) (p : float) (samples : Z) (cin : list bool)
  : result t :=
  let sp := {| exec_mode := mode; sample_size := 0; accessibility := 0%float;
               cave := {| Map.map := []; Map.size := size |};
               successful_attempts := 0 |} in
  match mode with
  | A => fst <$> ReadMapFromConsole sp cin
  | B => Ok {| exec_mode := mode; sample_size := samples; accessibility := p;
               cave := cave sp; successful_attempts := 0 |}
  | C => Ok {| exec_mode := mode; sample_size := samples; accessibility := 0%float;
               cave := cave sp; successful_attempts := 0 |}
  end.

End Speleo.

(** The cave an input matrix describes, as [ReadMapFromConsole] builds it:
    [true] is an obstructed region. *)
Definition cave_of (rows : list (list bool)) : Map.t :=
  {| Map.map := imap (fun i strip =>
                  imap (fun j b => Region.new (Z.of_nat i) (Z.of_nat j) b) strip) rows;
     Map.size := Z.of_nat (length rows) |}.

(** The strips of [cave_of rows], and one of them. *)
Definition strip_of (i : nat) (bs : list bool) : list Region.t :=
  imap (fun j b => Region.new (Z.of_nat i) (Z.of_nat j) b) bs.

Definition strips_of (rows : list (list bool)) : list (list Region.t) :=
  imap strip_of rows.

(** A [Speleo] in mode [m] about to traverse the cave [c]. *)
Definition speleo_on (m : Mode) (c : Map.t) : Speleo.t :=
  {| Speleo.exec_mode := m; Speleo.sample_size := 1;
     Speleo.accessibility := 0%float; Speleo.cave := c;
     Speleo.successful_attempts := 0 |}.

(** A random engine for the examples: a counter that cycles through four
    values of the unit interval. *)
Definition cycle_engine : RandomEngine nat := fun n =>
  (match (n mod 4)%nat with
   | 0%nat => 0.25%float
   | 1%nat => 0.75%float
   | 2%nat => 0.5%float
   | _ => 0%float
   end, S n).

(** The first strip of an input matrix has only obstructed regions. *)
Definition entry_obstructed (rows : list (list bool)) : bool :=
  match rows with
  | strip :: _ => forallb id strip
  | [] => false
  end.

(** An input matrix with as many columns as rows, and at least one of
    each. *)
Definition square (rows : list (list bool)) : bool :=
  negb (bool_decide (rows = [])) &&
  forallb (fun strip : list bool => bool_decide (length strip = length rows)) rows.

(** The matrix of a cave with no obstructed region. *)
Definition open_rows (n : nat) : list (list bool) := replicate n (replicate n false).

(** ** Predicates on caves and stacks *)

(** A cave of [size] strips of [size] regions, each holding its own
    coordinates: what [ReadMapFromConsole] and [GenerateMap] build, and
    what the traversal keeps. *)
Definition well_formed (c : Map.t) : Prop :=
  1 <= Map.size c /\
  length (Map.map c) = Z.to_nat (Map.size c) /\
  (forall i j, 0 <= i < Map.size c -> 0 <= j < Map.size c ->
     is_Some (Map.get c i j)) /\
  (forall i j r, Map.get c i j = Some r ->
     Region.pos r = (i, j) /\ i < Map.size c /\ j < Map.size c).

Definition in_cave (c : Map.t) (r : Region.t) : Prop :=
  0 <= Region.y r < Map.size c /\ 0 <= Region.x r < Map.size c.

(** What may happen to a region: only [discovered], and only upwards. *)
Definition region_evolves (r r' : Region.t) : Prop :=
  Region.y r' = Region.y r /\ Region.x r' = Region.x r /\
  Region.obstructed r' = Region.obstructed r /\
  (Region.discovered r = true -> Region.discovered r' = true).

Definition cave_evolves (c c' : Map.t) : Prop :=
  Map.size c' = Map.size c /\
  Forall2 (Forall2 region_evolves) (Map.map c) (Map.map c').

(** The four neighbours. *)
Definition adjacent (p q : Z * Z) : Prop :=
  Z.abs (p.1 - q.1) + Z.abs (p.2 - q.2) = 1.

(** What the four [ScoutRegion] calls of one pass of the loop do, as a
    relation between the cave and stack before and after: a sequence of
    steps, each marking a scoutable region of the cave next to the region
    [from] and pushing it. *)
Inductive scouts (from : Z * Z) : Map.t * scout -> Map.t * scout -> Prop :=
| scouts_none cs : scouts from cs cs
| scouts_push c s i j r cs' :
    Map.get c i j = Some r ->
    scoutable r = true ->
    adjacent from (i, j) ->
    scouts from (Map.set c i j (Region.mark r), push (Some from) (Region.mark r) s) cs' ->
    scouts from (c, s) cs'.

(** The regions the entry loop pushes for a first strip, first pushed
    first. *)
Definition seeds (strip : list Region.t) : list Region.t :=
  Region.mark <$> filter (fun r => scoutable r = true) strip.

(** The stack the entry loop leaves. *)
Definition seeded (strip : list Region.t) : scout :=
  {| regions_to_scout := reverse (seeds strip);
     history := Pushed None <$> reverse (seeds strip) |}.

(** The [while] loop as a relation between its state on entry and on
    exit. *)
Inductive run : Speleo.t * scout -> Speleo.t * scout -> Prop :=
| run_empty sp s :
    regions_to_scout s = [] -> run (sp, s) (sp, s)
| run_break sp s region below st' :
    regions_to_scout s = region :: below ->
    Speleo.iteration sp region s = Ok (Speleo.Break, st') ->
    run (sp, s) st'
| run_continue sp s region below st1 st' :
    regions_to_scout s = region :: below ->
    Speleo.iteration sp region s = Ok (Speleo.Continue, st1) ->
    run st1 st' ->
    run (sp, s) st'.

(** The invariant of the loop that keeps every access in range. *)
Definition sound (st : Speleo.t * scout) : Prop :=
  well_formed (Speleo.cave st.1) /\
  Forall (in_cave (Speleo.cave st.1)) (regions_to_scout st.2).

(** The measure of the loop. *)
Definition measure (st : Speleo.t * scout) : nat :=
  length (regions_to_scout st.2) + unscouted (Speleo.cave st.1).

(** A push that scouted the region at [p] as a neighbour of a popped
    region. *)
Definition scouted_as_neighbour (p : Z * Z) (e : push_event) : Prop :=
  Region.pos (pushed e) = p /\
  exists from, origin e = Some from /\ adjacent from p.

(** The last column of the cave is open and unmarked below strip [k]. *)
Definition east_open (c : Map.t) (k : Z) : Prop :=
  forall i, k < i < Map.size c ->
    exists r, Map.get c i (Map.size c - 1) = Some r /\ scoutable r = true.

(** The loop is about to pop the region of strip [k] in the last column,
    with the last column open and unmarked below it. *)
Definition descending (k : Z) (st : Speleo.t * scout) : Prop :=
  well_formed (Speleo.cave st.1) /\
  0 <= k < Map.size (Speleo.cave st.1) /\
  east_open (Speleo.cave st.1) k /\
  exists region below,
    regions_to_scout st.2 = region :: below /\
    Region.pos region = (k, Map.size (Speleo.cave st.1) - 1).

(** The states after each of the first [n] passes of the sample loop of
    case [B], started in [st]. *)
Fixpoint trials `{RandomEngine G} (n : nat) (st : Speleo.t * G)
  : result (list (Speleo.t * G)) :=
  match n with
  | O => Ok []
  | S n =>
      before ← trials n st;
      st' ← Speleo.sample (default st (last before));
      Ok (before ++ [st'])
  end.

(** Two states of the object that differ at most in
    [successful_attempts]. *)
Definition same_setup (sp sp' : Speleo.t) : Prop :=
  Speleo.exec_mode sp' = Speleo.exec_mode sp /\
  Speleo.sample_size sp' = Speleo.sample_size sp /\
  Speleo.accessibility sp' = Speleo.accessibility sp /\
  Speleo.cave sp' = Speleo.cave sp.

(** [successful_attempts] went up by zero or one. *)
Definition counted_once (sp sp' : Speleo.t) : Prop :=
  Speleo.successful_attempts sp' = Speleo.successful_attempts sp \/
  Speleo.successful_attempts sp' = Speleo.successful_attempts sp + 1.

(** The values [accessibility] takes at the successive tests of the loop
    of case [C] that succeed, from the value [p] on. *)
Fixpoint sweep_points (fuel : nat) (p : float) : list float :=
  match fuel with
  | O => []
  | S fuel =>
      if PrimFloat.leb p 1%float
      then p :: sweep_points fuel (p + one_percent)%float
      else []
  end.

(** A list of [double]s in strictly increasing order. *)
Fixpoint increasing (ps : list float) : bool :=
  match ps with
  | p :: (q :: _) as rest => PrimFloat.ltb p q && increasing rest
  | _ => true
  end.

(** A line that case [B] prints for the accessibility [p] with [samples]
    samples. *)
Definition success_line (samples : Z) (o : output) (p : float) : Prop :=
  exists k, o = Success p k samples /\ 0 <= k <= samples.

(** The input matrix has an accessible region at [p]. *)
Definition open_at (rows : list (list bool)) (p : Z * Z) : Prop :=
  0 <= p.1 /\ 0 <= p.2 /\
  exists strip,
    rows !! Z.to_nat p.1 = Some strip /\ strip !! Z.to_nat p.2 = Some false.

(** The positions a walk through accessible regions reaches from the first
    strip, going north, east, west or south. *)
Inductive reachable (rows : list (list bool)) : Z * Z -> Prop :=
| reachable_entry j :
    open_at rows (ENTRY, j) -> reachable rows (ENTRY, j)
| reachable_step p q :
    reachable rows p -> adjacent p q -> open_at rows q -> reachable rows q.

(** The cave can be crossed: the walk reaches the last strip. *)
Definition percolates (rows : list (list bool)) : Prop :=
  exists j, reachable rows (Z.of_nat (length rows) - 1, j).

(** The region of the cave [c] at [q], if there is one and it is
    accessible, is marked. *)
Definition marked (c : Map.t) (q : Z * Z) : Prop :=
  forall rq, Map.get c q.1 q.2 = Some rq ->
    Region.obstructed rq = false -> Region.discovered rq = true.

(** The four neighbours of the region [r] are marked in the cave [c]. *)
Definition closed (c : Map.t) (r : Region.t) : Prop :=
  forall q, adjacent (Region.pos r) q -> marked c q.

(** The region [r] has been popped on the way from the state [st] to the
    state [st'] in which the loop ended: its neighbours are marked, and if
    it lies in the last strip it has been counted. *)
Definition explored (st st' : Speleo.t * scout) (r : Region.t) : Prop :=
  closed (Speleo.cave st'.1) r /\
  (Region.y r + 1 = Map.size (Speleo.cave st.1) ->
   Speleo.successful_attempts st.1 < Speleo.successful_attempts st'.1).

(** The entry of a printed matrix in line [i], column [j]. *)
Definition shown (paths : list (list Z)) (i j : Z) : option Z :=
  at_ paths i ≫= fun line => at_ line j.

(** The cave [c] has a region at [p], with [discovered] equal to [d]. *)
Definition discovered_at (c : Map.t) (d : bool) (p : Z * Z) : Prop :=
  exists r, Map.get c p.1 p.2 = Some r /\ Region.discovered r = d.

(** The outcomes of [k] successive calls [Bernouilli(q)], and the engine
    after them. *)
Fixpoint draws `{RandomEngine G} (q : float) (k : nat) (g : G) : list bool * G :=
  match k with
  | O => ([], g)
  | S k =>
      let (b, g) := Bernouilli q g in
      let (bs, g) := draws q k g in
      (b :: bs, g)
  end.

(** The region [ScoutRegion(cave[p])] pushes, if it pushes one. *)
Definition scouted (c : Map.t) (p : Z * Z) : option Region.t :=
  Map.get c p.1 p.2 ≫= fun r => if scoutable r then Some (Region.mark r) else None.

(** The coordinates of the regions pushed, latest first. *)
Definition pushed_positions (s : scout) : list (Z * Z) :=
  (fun e => Region.pos (pushed e)) <$> history s.

(** The mode-[A] report. *)
Definition found (sp : Speleo.t) : bool :=
  bool_decide (Speleo.successful_attempts sp > 0).

(** [successful_attempts += 1] when the region on top is in the last
    strip. *)
Definition tally (sp : Speleo.t) (region : Region.t) : Speleo.t :=
  if bool_decide (Region.y region + 1 = Map.size (Speleo.cave sp))
  then Speleo.set_successful_attempts sp (Speleo.successful_attempts sp + 1)
  else sp.

(** * Properties *)

(** ** Vectors and caves *)

Lemma at_Some {T : Type} (v : list T) (i : Z) (a : T) :
  at_ v i = Some a <-> 0 <= i /\ v !! Z.to_nat i = Some a.
Proof.
  unfold at_. case_decide; split; intros; destruct_and?; try done; lia.
Qed.

Lemma at_of_nat {T : Type} (v : list T) (n : nat) :
  at_ v (Z.of_nat n) = v !! n.
Proof. unfold at_. case_decide; [by rewrite Nat2Z.id | lia]. Qed.

Lemma get_Some (c : Map.t) (i j : Z) (r : Region.t) :
  Map.get c i j = Some r <->
  0 <= i /\ 0 <= j /\
  exists strip, Map.map c !! Z.to_nat i = Some strip /\ strip !! Z.to_nat j = Some r.
Proof.
  unfold Map.get. split.
  - intros H. apply bind_Some in H as (strip & Hi & Hj).
    apply at_Some in Hi as [? ?]. apply at_Some in Hj as [? ?]. eauto 6.
  - intros (? & ? & strip & Hi & Hj). apply bind_Some. exists strip.
    split; apply at_Some; auto.
Qed.

Lemma get_set_eq (c : Map.t) (i j : Z) (r0 r : Region.t) :
  Map.get c i j = Some r0 -> Map.get (Map.set c i j r) i j = Some r.
Proof.
  rewrite !get_Some. intros (? & ? & strip & Hi & Hj).
  split; [done|]. split; [done|].
  exists (<[Z.to_nat j := r]> strip). simpl. split.
  - rewrite list_lookup_alter_eq, Hi. done.
  - apply list_lookup_insert_eq. by eapply lookup_lt_Some.
Qed.

Lemma get_set_ne (c : Map.t) (i j i' j' : Z) (r : Region.t) :
  0 <= i -> 0 <= j -> (i, j) <> (i', j') ->
  Map.get (Map.set c i j r) i' j' = Map.get c i' j'.
Proof.
  intros Hi Hj Hne. unfold Map.get, at_. simpl.
  destruct (decide (0 <= i')) as [Hi'|]; [|done].
  destruct (decide (Z.to_nat i = Z.to_nat i')) as [Heq|Hneq].
  - rewrite <- Heq, list_lookup_alter_eq.
    destruct (Map.map c !! Z.to_nat i) as [strip|]; [simpl|done].
    destruct (decide (0 <= j')) as [Hj'|]; [|done].
    apply list_lookup_insert_ne. intros Hjj.
    apply Hne. f_equal; lia.
  - by rewrite list_lookup_alter_ne.
Qed.

Lemma size_set (c : Map.t) (i j : Z) (r : Region.t) :
  Map.size (Map.set c i j r) = Map.size c.
Proof. done. Qed.

Lemma set_id (c : Map.t) (i j : Z) (r : Region.t) :
  Map.get c i j = Some r -> Map.set c i j r = c.
Proof.
  rewrite get_Some. intros (_ & _ & strip & Hi & Hj).
  destruct c as [m n]. unfold Map.set. simpl in *. f_equal.
  apply list_eq. intros k. destruct (decide (Z.to_nat i = k)) as [<-|Hne].
  - rewrite list_lookup_alter_eq, Hi. simpl. by rewrite list_insert_id.
  - by rewrite list_lookup_alter_ne.
Qed.

(** ** The measure of the loop *)

Lemma unscouted_in_insert_mark (strip : list Region.t) (n : nat) (r r' : Region.t) :
  strip !! n = Some r -> scoutable r = true -> scoutable r' = false ->
  S (unscouted_in (<[n := r']> strip)) = unscouted_in strip.
Proof.
  unfold unscouted_in. revert n.
  induction strip as [|a strip IH]; intros [|n] Hn Hr Hr'; simplify_eq/=.
  - rewrite filter_cons_False, filter_cons_True by congruence. done.
  - rewrite !(filter_cons _ a). case_decide; simpl; rewrite <- (IH n); auto.
Qed.

Lemma unscouted_alter_mark (m : list (list Region.t)) (k n : nat)
    (strip : list Region.t) (r r' : Region.t) :
  m !! k = Some strip -> strip !! n = Some r ->
  scoutable r = true -> scoutable r' = false ->
  S (sum_list_with unscouted_in (alter (fun strip => <[n := r']> strip) k m)) =
  sum_list_with unscouted_in m.
Proof.
  revert k. induction m as [|a m IH]; intros [|k] Hk Hn Hr Hr'; simplify_eq/=.
  - by rewrite <- (unscouted_in_insert_mark strip n r r').
  - by rewrite <- (IH k).
Qed.

Lemma scoutable_mark (r : Region.t) : scoutable (Region.mark r) = false.
Proof. unfold scoutable, Region.IsUnknown. simpl. apply andb_false_r. Qed.

Lemma unscouted_set_mark (c : Map.t) (i j : Z) (r : Region.t) :
  Map.get c i j = Some r -> scoutable r = true ->
  S (unscouted (Map.set c i j (Region.mark r))) = unscouted c.
Proof.
  rewrite get_Some. intros (_ & _ & strip & Hi & Hj) Hr.
  unfold unscouted. simpl.
  eapply unscouted_alter_mark; eauto using scoutable_mark.
Qed.

(** ** One call of [ScoutRegion] *)

Lemma ScoutRegion_cases (from : option (Z * Z)) (r : Region.t) (s : scout) :
  (scoutable r = true /\
   ScoutRegion from r s = (Region.mark r, push from (Region.mark r) s)) \/
  (scoutable r = false /\ ScoutRegion from r s = (r, s)).
Proof.
  unfold ScoutRegion, scoutable.
  destruct (Region.IsAccessible r && Region.IsUnknown r); auto.
Qed.

Lemma ScoutRegion_ref_cases (from : Z * Z) (i j : Z) (c c' : Map.t) (s s' : scout) :
  ScoutRegion_ref from i j (c, s) = Ok (c', s') ->
  exists r, Map.get c i j = Some r /\
    ((scoutable r = true /\ c' = Map.set c i j (Region.mark r) /\
      s' = push (Some from) (Region.mark r) s) \/
     (scoutable r = false /\ c' = c /\ s' = s)).
Proof.
  unfold ScoutRegion_ref. simpl.
  destruct (Map.get c i j) as [r|] eqn:Hget; [|done].
  destruct (ScoutRegion_cases (Some from) r s) as [[Hr ->]|[Hr ->]];
    intros [= <- <-]; exists r; split; auto.
  right. split; [done|]. split; [|done]. by apply set_id.
Qed.

Lemma ScoutRegion_ref_Ok (from : Z * Z) (i j : Z) (c : Map.t) (s : scout) :
  is_Some (Map.get c i j) -> is_Ok (ScoutRegion_ref from i j (c, s)).
Proof.
  intros [r Hr]. unfold ScoutRegion_ref. simpl. rewrite Hr.
  destruct (ScoutRegion (Some from) r s). by eexists.
Qed.

Lemma scouts_trans (from : Z * Z) (cs1 cs2 cs3 : Map.t * scout) :
  scouts from cs1 cs2 -> scouts from cs2 cs3 -> scouts from cs1 cs3.
Proof. induction 1; eauto using scouts. Qed.

Lemma scout_if_scouts (cond : bool) (from : Z * Z) (i j : Z) (cs cs' : Map.t * scout) :
  adjacent from (i, j) ->
  Speleo.scout_if cond from i j cs = Ok cs' -> scouts from cs cs'.
Proof.
  intros Hadj. unfold Speleo.scout_if. destruct cond.
  - destruct cs as [c s], cs' as [c' s']. intros H.
    apply ScoutRegion_ref_cases in H as (r & Hget & [(Hr & -> & ->)|(Hr & -> & ->)]).
    + eapply scouts_push; eauto using scouts.
    + constructor.
  - intros [= <-]. constructor.
Qed.

(** ** One pass of the loop *)

Lemma iteration_cases (sp sp' : Speleo.t) (region : Region.t) (s s' : scout)
    (fl : Speleo.flow) :
  Speleo.iteration sp region s = Ok (fl, (sp', s')) ->
  (fl = Speleo.Break /\
   Region.y region + 1 = Map.size (Speleo.cave sp) /\ Speleo.exec_mode sp <> A /\
   sp' = tally sp region /\ s' = s) \/
  (fl = Speleo.Continue /\
   (Region.y region + 1 = Map.size (Speleo.cave sp) -> Speleo.exec_mode sp = A) /\
   exists c', sp' = Speleo.set_cave (tally sp region) c' /\
     scouts (Region.pos region) (Speleo.cave sp, pop s) (c', s')).
Proof.
  unfold Speleo.iteration, tally.
  set (y := Region.y region). set (x := Region.x region).
  set (sp1 := if bool_decide (y + 1 = Map.size (Speleo.cave sp)) then _ else sp).
  assert (Hc : Speleo.cave sp1 = Speleo.cave sp)
    by (subst sp1; by case_bool_decide).
  assert (Hm : Speleo.exec_mode sp1 = Speleo.exec_mode sp)
    by (subst sp1; by case_bool_decide).
  rewrite Hc, Hm.
  destruct (bool_decide (y + 1 = Map.size (Speleo.cave sp)) &&
            negb (bool_decide (Speleo.exec_mode sp = A))) eqn:Hbrk.
  - intros [= <- <- <-]. left.
    apply andb_true_iff in Hbrk as [Hhit Hmode].
    apply bool_decide_eq_true in Hhit. apply negb_true_iff in Hmode.
    apply bool_decide_eq_false in Hmode. done.
  - intros H. right.
    destruct (Speleo.scout_if _ _ (y - 1) x _) as [cs1| |] eqn:H1; [simpl in H|done..].
    destruct (Speleo.scout_if _ _ y (x + 1) _) as [cs2| |] eqn:H2; [simpl in H|done..].
    destruct (Speleo.scout_if _ _ y (x - 1) _) as [cs3| |] eqn:H3; [simpl in H|done..].
    destruct (Speleo.scout_if _ _ (y + 1) x _) as [cs4| |] eqn:H4; [simpl in H|done..].
    injection H as <- <- <-. split; [done|]. split.
    + intros Hhit. apply andb_false_iff in Hbrk as [Hb|Hb].
      * by apply bool_decide_eq_false in Hb.
      * apply negb_false_iff, bool_decide_eq_true in Hb. done.
    + exists cs4.1. split; [done|].
      assert (forall i j, Z.abs (y - i) + Z.abs (x - j) = 1 ->
                adjacent (Region.pos region) (i, j)) as Hadj by done.
      apply scout_if_scouts in H1, H2, H3, H4; try (apply Hadj; lia).
      destruct cs4. eauto using scouts_trans.
Qed.

(** ** What a pass may change in the cave *)

#[global] Instance region_evolves_refl : Reflexive region_evolves.
Proof. by intros r. Qed.

#[global] Instance region_evolves_trans : Transitive region_evolves.
Proof.
  intros r1 r2 r3 (? & ? & ? & ?) (? & ? & ? & ?).
  repeat split; try congruence; auto.
Qed.

#[global] Instance cave_evolves_refl : Reflexive cave_evolves.
Proof. by intros c. Qed.

#[global] Instance cave_evolves_trans : Transitive cave_evolves.
Proof.
  intros c1 c2 c3 [? ?] [? ?]. split; [congruence|by etrans].
Qed.

Lemma region_evolves_mark (r : Region.t) : region_evolves r (Region.mark r).
Proof. by repeat split. Qed.

Lemma cave_evolves_set (c : Map.t) (i j : Z) (r r' : Region.t) :
  Map.get c i j = Some r -> region_evolves r r' ->
  cave_evolves c (Map.set c i j r').
Proof.
  rewrite get_Some. intros (_ & _ & strip & Hi & Hj) Hr.
  split; [done|]. simpl.
  apply Forall2_alter_r; [done|]. intros strip1 strip2 H1 H2 _.
  assert (strip1 = strip) as -> by congruence.
  assert (strip2 = strip) as -> by congruence.
  rewrite <- (list_insert_id strip (Z.to_nat j) r) at 1 by done.
  apply Forall2_insert; [reflexivity|auto].
Qed.

Lemma cave_evolves_get (c c' : Map.t) (i j : Z) (r : Region.t) :
  cave_evolves c c' -> Map.get c i j = Some r ->
  exists r', Map.get c' i j = Some r' /\ region_evolves r r'.
Proof.
  intros [_ Hm]. rewrite get_Some. intros (? & ? & strip & Hi & Hj).
  destruct (Forall2_lookup_l _ _ _ _ _ Hm Hi) as (strip' & Hi' & Hs).
  destruct (Forall2_lookup_l _ _ _ _ _ Hs Hj) as (r' & Hj' & Hr).
  exists r'. split; [|done]. apply get_Some. eauto 6.
Qed.

Lemma cave_evolves_get_inv (c c' : Map.t) (i j : Z) (r' : Region.t) :
  cave_evolves c c' -> Map.get c' i j = Some r' ->
  exists r, Map.get c i j = Some r /\ region_evolves r r'.
Proof.
  intros [_ Hm]. rewrite get_Some. intros (? & ? & strip' & Hi' & Hj').
  destruct (Forall2_lookup_r _ _ _ _ _ Hm Hi') as (strip & Hi & Hs).
  destruct (Forall2_lookup_r _ _ _ _ _ Hs Hj') as (r & Hj & Hr).
  exists r. split; [|done]. apply get_Some. eauto 6.
Qed.

Lemma get_set (c : Map.t) (i j i' j' : Z) (r0 r : Region.t) :
  Map.get c i j = Some r0 ->
  Map.get (Map.set c i j r) i' j' =
  if decide ((i, j) = (i', j')) then Some r else Map.get c i' j'.
Proof.
  intros Hget. case_decide as Heq.
  - injection Heq as <- <-. by eapply get_set_eq.
  - apply get_Some in Hget as (? & ? & _). by apply get_set_ne.
Qed.

Lemma well_formed_set_mark (c : Map.t) (i j : Z) (r : Region.t) :
  well_formed c -> Map.get c i j = Some r ->
  well_formed (Map.set c i j (Region.mark r)).
Proof.
  intros (Hsize & Hlen & Hin & Hpos) Hget. split; [done|]. split; [|split].
  - simpl. by rewrite length_alter.
  - intros i' j' ? ?. rewrite (get_set _ _ _ _ _ r) by done.
    case_decide; [by eexists|by apply Hin].
  - intros i' j' r'. rewrite (get_set _ _ _ _ _ r) by done. simpl.
    case_decide as Heq; [|by apply Hpos].
    intros [= <-]. injection Heq as <- <-. by apply Hpos in Hget.
Qed.

Lemma scouts_evolves (from : Z * Z) (cs cs' : Map.t * scout) :
  scouts from cs cs' -> cave_evolves cs.1 cs'.1.
Proof.
  induction 1 as [|c s i j r cs' Hget Hr Hadj _ IH]; [done|].
  simpl in *. etrans; [|exact IH].
  eapply cave_evolves_set; eauto using region_evolves_mark.
Qed.

Lemma scouts_well_formed (from : Z * Z) (cs cs' : Map.t * scout) :
  scouts from cs cs' -> well_formed cs.1 -> well_formed cs'.1.
Proof.
  induction 1 as [|c s i j r cs' Hget Hr Hadj _ IH]; [done|].
  simpl in *. eauto using well_formed_set_mark.
Qed.

Lemma scouts_measure (from : Z * Z) (cs cs' : Map.t * scout) :
  scouts from cs cs' ->
  (length (regions_to_scout cs'.2) + unscouted cs'.1 =
   length (regions_to_scout cs.2) + unscouted cs.1)%nat /\
  (length (history cs'.2) + unscouted cs'.1 =
   length (history cs.2) + unscouted cs.1)%nat.
Proof.
  induction 1 as [|c s i j r cs' Hget Hr Hadj _ IH]; [done|].
  simpl in *. pose proof (unscouted_set_mark c i j r Hget Hr). lia.
Qed.

Lemma scouts_size (from : Z * Z) (cs cs' : Map.t * scout) :
  scouts from cs cs' -> Map.size cs'.1 = Map.size cs.1.
Proof. intros H. by apply scouts_evolves in H as [? _]. Qed.

Lemma scouts_stack (from : Z * Z) (cs cs' : Map.t * scout) :
  scouts from cs cs' -> well_formed cs.1 ->
  Forall (in_cave cs.1) (regions_to_scout cs.2) ->
  Forall (in_cave cs'.1) (regions_to_scout cs'.2).
Proof.
  induction 1 as [|c s i j r cs' Hget Hr Hadj _ IH]; [done|].
  simpl in *. intros Hwf Hs. apply IH; [by eapply well_formed_set_mark|].
  simpl. constructor; [|done].
  destruct Hwf as (_ & _ & _ & Hpos).
  destruct (Hpos _ _ _ Hget) as ([= Hy Hx] & ? & ?).
  apply get_Some in Hget as (? & ? & _).
  unfold in_cave. simpl. lia.
Qed.

(** ** The loop neither runs out of fuel nor leaves the cave *)

Lemma scout_if_not_OutOfFuel (cond : bool) (from : Z * Z) (i j : Z)
    (cs : Map.t * scout) :
  Speleo.scout_if cond from i j cs <> OutOfFuel.
Proof.
  unfold Speleo.scout_if, ScoutRegion_ref. destruct cond; [|done].
  destruct (Map.get cs.1 i j); [|done]. by destruct (ScoutRegion _ _ _).
Qed.

Lemma iteration_not_OutOfFuel (sp : Speleo.t) (region : Region.t) (s : scout) :
  Speleo.iteration sp region s <> OutOfFuel.
Proof.
  unfold Speleo.iteration.
  destruct (_ && _); [done|].
  repeat match goal with
  | |- context [Speleo.scout_if ?b ?f ?i ?j ?cs] =>
      let H := fresh in
      pose proof (scout_if_not_OutOfFuel b f i j cs) as H;
      destruct (Speleo.scout_if b f i j cs); [simpl|done..]
  end.
  done.
Qed.

Lemma iteration_measure (sp : Speleo.t) (region : Region.t) (below : list Region.t)
    (s : scout) (st1 : Speleo.t * scout) :
  regions_to_scout s = region :: below ->
  Speleo.iteration sp region s = Ok (Speleo.Continue, st1) ->
  S (measure st1) = measure (sp, s).
Proof.
  intros Hs Hit. destruct st1 as [sp1 s1].
  apply iteration_cases in Hit as [(? & _)|(_ & _ & c' & -> & Hsc)]; [done|].
  apply scouts_measure in Hsc as [Hm _]. unfold measure. simpl in *.
  rewrite Hs in *. simpl in *. lia.
Qed.

Lemma explore_not_OutOfFuel (fuel : nat) (sp : Speleo.t) (s : scout) :
  (measure (sp, s) < fuel)%nat -> Speleo.explore fuel sp s <> OutOfFuel.
Proof.
  revert sp s. induction fuel as [|fuel IH]; intros sp s Hfuel; [lia|].
  simpl. destruct (regions_to_scout s) as [|region below] eqn:Hs; [done|].
  destruct (Speleo.iteration sp region s) as [[[] [sp1 s1]]| |] eqn:Hit; try done.
  - apply IH. apply (iteration_measure _ _ below) in Hit; [lia|done].
  - by apply iteration_not_OutOfFuel in Hit.
Qed.

Lemma scout_if_Ok (cond : bool) (from : Z * Z) (i j : Z) (cs : Map.t * scout) :
  well_formed cs.1 ->
  (cond = true -> 0 <= i < Map.size cs.1 /\ 0 <= j < Map.size cs.1) ->
  is_Ok (Speleo.scout_if cond from i j cs).
Proof.
  intros (_ & _ & Hin & _) Hrange. unfold Speleo.scout_if.
  destruct cond; [|by eexists]. destruct cs as [c s].
  apply ScoutRegion_ref_Ok. apply Hin; by apply Hrange.
Qed.

Lemma iteration_Ok (sp : Speleo.t) (region : Region.t) (s : scout) :
  well_formed (Speleo.cave sp) -> in_cave (Speleo.cave sp) region ->
  is_Ok (Speleo.iteration sp region s).
Proof.
  intros Hwf [Hy Hx]. unfold Speleo.iteration.
  set (y := Region.y region) in *. set (x := Region.x region) in *.
  set (sp1 := if bool_decide (y + 1 = Map.size (Speleo.cave sp)) then _ else sp).
  assert (Hc : Speleo.cave sp1 = Speleo.cave sp)
    by (subst sp1; by case_bool_decide).
  rewrite Hc. clearbody sp1.
  destruct (_ && _); [by eexists|].
  set (n := Map.size (Speleo.cave sp)) in *.
  assert (forall cond i j cs,
    scouts (y, x) (Speleo.cave sp, pop s) cs ->
    (cond = true -> 0 <= i < n /\ 0 <= j < n) ->
    adjacent (y, x) (i, j) ->
    exists cs', Speleo.scout_if cond (y, x) i j cs = Ok cs' /\
      scouts (y, x) (Speleo.cave sp, pop s) cs') as Hstep.
  { intros cond i j cs Hsc Hrange Hadj.
    destruct (scout_if_Ok cond (y, x) i j cs) as [cs' Hcs'].
    - by apply scouts_well_formed in Hsc.
    - by rewrite (scouts_size _ _ _ Hsc).
    - exists cs'. split; [done|].
      eapply scouts_trans; [done|by eapply scout_if_scouts]. }
  assert (forall i j, Z.abs (y - i) + Z.abs (x - j) = 1 ->
            adjacent (y, x) (i, j)) as Hadj by done.
  destruct (Hstep (bool_decide (y - 1 >= 0)) (y - 1) x (Speleo.cave sp, pop s))
    as (cs1 & -> & Hsc1);
    [constructor|intros ?%bool_decide_eq_true; lia|apply Hadj; lia|simpl].
  destruct (Hstep (bool_decide (x + 1 < n)) y (x + 1) cs1)
    as (cs2 & -> & Hsc2);
    [done|intros ?%bool_decide_eq_true; lia|apply Hadj; lia|simpl].
  destruct (Hstep (bool_decide (x - 1 >= 0)) y (x - 1) cs2)
    as (cs3 & -> & Hsc3);
    [done|intros ?%bool_decide_eq_true; lia|apply Hadj; lia|simpl].
  destruct (Hstep (bool_decide (y + 1 < n)) (y + 1) x cs3)
    as (cs4 & -> & Hsc4);
    [done|intros ?%bool_decide_eq_true; lia|apply Hadj; lia|simpl].
  by eexists.
Qed.

Lemma cave_tally (sp : Speleo.t) (region : Region.t) :
  Speleo.cave (tally sp region) = Speleo.cave sp.
Proof. unfold tally. by case_bool_decide. Qed.

Lemma exec_mode_tally (sp : Speleo.t) (region : Region.t) :
  Speleo.exec_mode (tally sp region) = Speleo.exec_mode sp.
Proof. unfold tally. by case_bool_decide. Qed.

Lemma iteration_sound (sp : Speleo.t) (region : Region.t) (below : list Region.t)
    (s : scout) (fl : Speleo.flow) (st' : Speleo.t * scout) :
  sound (sp, s) -> regions_to_scout s = region :: below ->
  Speleo.iteration sp region s = Ok (fl, st') -> sound st'.
Proof.
  intros [Hwf Hs] Hstack Hit. destruct st' as [sp' s']. simpl in *.
  apply iteration_cases in Hit
    as [(_ & _ & _ & -> & ->)|(_ & _ & c' & -> & Hsc)]; unfold sound; simpl.
  - by rewrite cave_tally.
  - split.
    + by apply scouts_well_formed in Hsc.
    + apply scouts_stack in Hsc; [done..|]. simpl. rewrite Hstack in *.
      by eapply Forall_cons_1.
Qed.

Lemma explore_run (fuel : nat) (sp : Speleo.t) (s : scout) (st' : Speleo.t * scout) :
  Speleo.explore fuel sp s = Ok st' -> run (sp, s) st'.
Proof.
  revert sp s. induction fuel as [|fuel IH]; intros sp s; [done|]. simpl.
  destruct (regions_to_scout s) as [|region below] eqn:Hs.
  - intros [= <-]. by constructor.
  - destruct (Speleo.iteration sp region s) as [[[] [sp1 s1]]| |] eqn:Hit; try done.
    + intros H. eapply run_continue; eauto.
    + intros [= <-]. eapply run_break; eauto.
Qed.

Lemma run_explore (fuel : nat) (st st' : Speleo.t * scout) :
  run st st' -> (measure st < fuel)%nat -> Speleo.explore fuel st.1 st.2 = Ok st'.
Proof.
  intros Hrun. revert fuel.
  induction Hrun as [sp s Hs|sp s region below st' Hs Hit
                    |sp s region below st1 st' Hs Hit _ IH];
    intros [|fuel] Hfuel; try lia; simpl; rewrite Hs;
    [done|destruct st'; by rewrite Hit|].
  rewrite Hit. destruct st1 as [sp1 s1]. apply IH.
  apply (iteration_measure _ _ below) in Hit; [lia|done].
Qed.

Lemma explore_Ok (fuel : nat) (sp : Speleo.t) (s : scout) :
  sound (sp, s) -> (measure (sp, s) < fuel)%nat ->
  is_Ok (Speleo.explore fuel sp s).
Proof.
  revert sp s. induction fuel as [|fuel IH]; intros sp s Hsound Hfuel; [lia|].
  simpl. destruct (regions_to_scout s) as [|region below] eqn:Hs; [by eexists|].
  destruct (iteration_Ok sp region s) as [[fl [sp1 s1]] Hit].
  - apply Hsound.
  - destruct Hsound as [_ Hst]. simpl in Hst. rewrite Hs in Hst.
    by eapply Forall_cons_1.
  - rewrite Hit. destruct fl; [|by eexists].
    apply IH; [by eapply iteration_sound|].
    apply (iteration_measure _ _ below) in Hit; [lia|done].
Qed.

(** ** What the loop leaves behind *)

Lemma run_sound (st st' : Speleo.t * scout) : run st st' -> sound st -> sound st'.
Proof.
  induction 1; eauto using iteration_sound.
Qed.

Lemma run_evolves (st st' : Speleo.t * scout) :
  run st st' -> cave_evolves (Speleo.cave st.1) (Speleo.cave st'.1).
Proof.
  induction 1 as [sp s Hs|sp s region below [sp' s'] Hs Hit
                 |sp s region below [sp1 s1] st' Hs Hit _ IH]; simpl in *.
  - done.
  - apply iteration_cases in Hit as [(_ & _ & _ & -> & ->)|(? & _)]; [|done].
    by rewrite cave_tally.
  - apply iteration_cases in Hit as [(? & _)|(_ & _ & c' & -> & Hsc)]; [done|].
    etrans; [|exact IH]. by apply scouts_evolves in Hsc.
Qed.

Lemma run_halts (st st' : Speleo.t * scout) :
  run st st' ->
  regions_to_scout st'.2 = [] \/
  (Speleo.exec_mode st'.1 <> A /\
   exists region below, regions_to_scout st'.2 = region :: below /\
     Region.y region + 1 = Map.size (Speleo.cave st'.1)).
Proof.
  induction 1 as [sp s Hs|sp s region below [sp' s'] Hs Hit
                 |sp s region below [sp1 s1] st' Hs Hit _ IH]; simpl in *.
  - by left.
  - right.
    apply iteration_cases in Hit as [(_ & Hy & Hm & -> & ->)|(? & _)]; [|done].
    rewrite exec_mode_tally, cave_tally. eauto.
  - done.
Qed.

Lemma run_fields (st st' : Speleo.t * scout) :
  run st st' ->
  Speleo.exec_mode st'.1 = Speleo.exec_mode st.1 /\
  Speleo.sample_size st'.1 = Speleo.sample_size st.1 /\
  Speleo.accessibility st'.1 = Speleo.accessibility st.1.
Proof.
  assert (forall sp region,
    Speleo.exec_mode (tally sp region) = Speleo.exec_mode sp /\
    Speleo.sample_size (tally sp region) = Speleo.sample_size sp /\
    Speleo.accessibility (tally sp region) = Speleo.accessibility sp) as Ht
    by (intros; unfold tally; by case_bool_decide).
  induction 1 as [sp s Hs|sp s region below [sp' s'] Hs Hit
                 |sp s region below [sp1 s1] st' Hs Hit _ IH]; simpl in *.
  - done.
  - apply iteration_cases in Hit as [(_ & _ & _ & -> & ->)|(? & _)]; [|done].
    apply Ht.
  - apply iteration_cases in Hit as [(? & _)|(_ & _ & c' & -> & Hsc)]; [done|].
    simpl in IH. destruct (Ht sp region) as (<- & <- & <-). done.
Qed.

Lemma run_pushes (st st' : Speleo.t * scout) :
  run st st' ->
  (length (history st'.2) + unscouted (Speleo.cave st'.1) =
   length (history st.2) + unscouted (Speleo.cave st.1))%nat.
Proof.
  induction 1 as [sp s Hs|sp s region below [sp' s'] Hs Hit
                 |sp s region below [sp1 s1] st' Hs Hit _ IH]; simpl in *.
  - done.
  - apply iteration_cases in Hit as [(_ & _ & _ & -> & ->)|(? & _)]; [|done].
    by rewrite cave_tally.
  - apply iteration_cases in Hit as [(? & _)|(_ & _ & c' & -> & Hsc)]; [done|].
    apply scouts_measure in Hsc as [_ Hh]. simpl in *. lia.
Qed.

Lemma run_successes (st st' : Speleo.t * scout) :
  run st st' ->
  Speleo.successful_attempts st.1 <= Speleo.successful_attempts st'.1 /\
  (Speleo.exec_mode st.1 <> A ->
   (regions_to_scout st'.2 = [] /\
    Speleo.successful_attempts st'.1 = Speleo.successful_attempts st.1) \/
   (regions_to_scout st'.2 <> [] /\
    Speleo.successful_attempts st'.1 = Speleo.successful_attempts st.1 + 1)).
Proof.
  assert (forall sp region,
    Speleo.successful_attempts sp <= Speleo.successful_attempts (tally sp region))
    as Hle by (intros; unfold tally; case_bool_decide; simpl; lia).
  induction 1 as [sp s Hs|sp s region below [sp' s'] Hs Hit
                 |sp s region below [sp1 s1] st' Hs Hit _ IH]; simpl in *.
  - split; [lia|]. intros _. by left.
  - apply iteration_cases in Hit as [(_ & Hy & Hm & -> & ->)|(? & _)]; [|done].
    split; [apply Hle|]. intros _. right. rewrite Hs. split; [done|].
    unfold tally. by rewrite bool_decide_eq_true_2.
  - apply iteration_cases in Hit as [(? & _)|(_ & Hhit & c' & -> & Hsc)]; [done|].
    simpl in IH. rewrite exec_mode_tally in IH. destruct IH as [IH1 IH2].
    split; [specialize (Hle sp region); lia|].
    intros Hm. unfold tally in IH2. rewrite bool_decide_eq_false_2 in IH2; auto.
Qed.

(** ** The entry loop *)

Lemma entry_loop (strip : list Region.t) (s : scout) :
  foldl (fun s region => ScoutRegion_copy region s) s strip =
  {| regions_to_scout := reverse (seeds strip) ++ regions_to_scout s;
     history := (Pushed None <$> reverse (seeds strip)) ++ history s |}.
Proof.
  revert s. unfold seeds.
  induction strip as [|r strip IH]; intros s; [by destruct s|].
  simpl. rewrite IH. unfold ScoutRegion_copy.
  destruct (ScoutRegion_cases None r s) as [[Hr ->]|[Hr ->]]; simpl.
  - rewrite filter_cons_True by done. simpl.
    rewrite reverse_cons, fmap_app, <- !app_assoc. done.
  - rewrite filter_cons_False by congruence. done.
Qed.

Lemma entries_Ok (sp : Speleo.t) (strip : list Region.t) :
  at_ (Map.map (Speleo.cave sp)) ENTRY = Some strip ->
  Speleo.entries sp = Ok (seeded strip).
Proof.
  intros H. unfold Speleo.entries. rewrite H. simpl.
  by rewrite entry_loop, !app_nil_r.
Qed.

Lemma well_formed_entry (c : Map.t) :
  well_formed c ->
  exists strip, at_ (Map.map c) ENTRY = Some strip /\
    length strip = Z.to_nat (Map.size c) /\
    Forall (in_cave c) strip.
Proof.
  intros (Hsize & Hlen & Hin & Hpos).
  destruct (Hin 0 0) as [r0 Hr0]; [lia..|].
  pose proof Hr0 as Hr0'.
  apply get_Some in Hr0' as (_ & _ & strip & Hstrip & _).
  assert (forall (j : nat) r, strip !! j = Some r -> Map.get c 0 (Z.of_nat j) = Some r)
    as Hget.
  { intros j r Hj. apply get_Some. split; [done|]. split; [lia|].
    exists strip. by rewrite Nat2Z.id. }
  exists strip. split; [|split].
  - by apply at_Some.
  - apply Nat.le_antisymm.
    + apply Nat.nlt_ge. intros Hlt.
      destruct (lookup_lt_is_Some_2 strip (Z.to_nat (Map.size c))) as [r Hr]; [lia|].
      apply Hget, Hpos in Hr. lia.
    + apply Nat.nlt_ge. intros Hlt.
      destruct (Hin 0 (Z.of_nat (length strip))) as [r Hr]; [lia..|].
      apply get_Some in Hr as (_ & _ & strip' & Hs' & Hr).
      assert (strip' = strip) as -> by (simpl in *; congruence).
      rewrite Nat2Z.id in Hr. apply lookup_lt_Some in Hr. lia.
  - apply Forall_lookup. intros j r Hj.
    apply Hget, Hpos in Hj as ([= Hy Hx] & _ & ?).
    unfold in_cave. lia.
Qed.

Lemma seeds_in_cave (c : Map.t) (strip : list Region.t) :
  Forall (in_cave c) strip -> Forall (in_cave c) (reverse (seeds strip)).
Proof.
  rewrite !Forall_forall. intros H r.
  rewrite elem_of_reverse. unfold seeds.
  intros (r0 & -> & [_ Hr0]%list_elem_of_filter)%list_elem_of_fmap.
  by apply H in Hr0.
Qed.

Lemma length_seeds (strip : list Region.t) :
  (length (seeds strip) <= length strip)%nat.
Proof. unfold seeds. rewrite length_fmap. apply length_filter. Qed.

Lemma sum_list_with_bound {T : Type} (f : T -> nat) (l : list T) (k : nat) :
  Forall (fun a => f a <= k)%nat l -> (sum_list_with f l <= length l * k)%nat.
Proof. induction 1; simpl; lia. Qed.

Lemma well_formed_strips (c : Map.t) :
  well_formed c ->
  Forall (fun strip => length strip <= Z.to_nat (Map.size c))%nat (Map.map c).
Proof.
  intros (Hsize & Hlen & Hin & Hpos). apply Forall_lookup. intros i strip Hi.
  apply Nat.nlt_ge. intros Hlt.
  destruct (lookup_lt_is_Some_2 strip (Z.to_nat (Map.size c))) as [r Hr]; [lia|].
  assert (Map.get c (Z.of_nat i) (Map.size c) = Some r) as Hget.
  { apply get_Some. split; [lia|]. split; [lia|].
    exists strip. by rewrite Nat2Z.id. }
  apply Hpos in Hget. lia.
Qed.

Lemma unscouted_bound (c : Map.t) :
  well_formed c -> Z.of_nat (unscouted c) <= Map.size c * Map.size c.
Proof.
  intros Hwf. pose proof (well_formed_strips c Hwf) as Hstrips.
  destruct Hwf as (Hsize & Hlen & _).
  assert (sum_list_with unscouted_in (Map.map c) <=
          length (Map.map c) * Z.to_nat (Map.size c))%nat as Hsum.
  { apply sum_list_with_bound. eapply Forall_impl; [exact Hstrips|].
    intros strip Hs. simpl in Hs. unfold unscouted_in.
    pose proof (length_filter (fun r => scoutable r = true) strip). lia. }
  unfold unscouted. rewrite Hlen in Hsum. nia.
Qed.

(** ** The traversal as a whole *)

Lemma traverse_run (sp : Speleo.t) :
  well_formed (Speleo.cave sp) ->
  exists strip st',
    at_ (Map.map (Speleo.cave sp)) ENTRY = Some strip /\
    length strip = Z.to_nat (Map.size (Speleo.cave sp)) /\
    Speleo.traverse sp = Ok st' /\
    run (sp, seeded strip) st'.
Proof.
  intros Hwf.
  destruct (well_formed_entry _ Hwf) as (strip & Hstrip & Hlen & Hin).
  assert (sound (sp, seeded strip)) as Hsound
    by (split; [done|by apply seeds_in_cave]).
  destruct (explore_Ok (Speleo.fuel_for sp (seeded strip)) sp (seeded strip))
    as [st' Hst']; [done|unfold Speleo.fuel_for, measure; simpl; lia|].
  exists strip, st'. split; [done|]. split; [done|]. split.
  - unfold Speleo.traverse. by rewrite (entries_Ok sp strip).
  - by eapply explore_run.
Qed.

Lemma traverse_not_OutOfFuel (sp : Speleo.t) : Speleo.traverse sp <> OutOfFuel.
Proof.
  unfold Speleo.traverse.
  destruct (Speleo.entries sp) as [s| |] eqn:Hs; [|done|].
  - change (Speleo.explore (Speleo.fuel_for sp s) sp s <> OutOfFuel).
    apply explore_not_OutOfFuel. unfold Speleo.fuel_for, measure. simpl. lia.
  - unfold Speleo.entries in Hs. by destruct (at_ _ _).
Qed.

(** C8. The traversal terminates on every cave. Whatever the cave, the
    fuel [AttemptCaveTraverse] starts with is never used up; on a
    well-formed cave it returns, with the stack empty or, outside mode [A],
    with a region of the last strip on top; any larger amount of fuel gives
    the same result; and there are at most [size + size * size] pushes,
    because every push of the loop marks a region of the cave. *)
Theorem traverse_terminates (sp : Speleo.t) :
  Speleo.traverse sp <> OutOfFuel /\
  (well_formed (Speleo.cave sp) ->
   exists s st',
     Speleo.entries sp = Ok s /\
     Speleo.traverse sp = Ok st' /\
     (forall fuel, (Speleo.fuel_for sp s <= fuel)%nat ->
        Speleo.explore fuel sp s = Ok st') /\
     (regions_to_scout st'.2 = [] \/
      (Speleo.exec_mode sp <> A /\
       exists region below,
         regions_to_scout st'.2 = region :: below /\
         Region.y region + 1 = Map.size (Speleo.cave sp))) /\
     Z.of_nat (length (history st'.2)) <=
       Map.size (Speleo.cave sp) + Map.size (Speleo.cave sp) * Map.size (Speleo.cave sp)).
Proof.
  split; [apply traverse_not_OutOfFuel|]. intros Hwf.
  destruct (traverse_run sp Hwf) as (strip & st' & Hstrip & Hlen & Htr & Hrun).
  exists (seeded strip), st'. split; [by apply entries_Ok|]. split; [done|].
  split; [|split].
  - intros fuel Hfuel. apply (run_explore fuel _ _ Hrun).
    unfold Speleo.fuel_for, measure in *. simpl in *. lia.
  - destruct (run_fields _ _ Hrun) as (Hm & _).
    pose proof (run_evolves _ _ Hrun) as [Hsz _].
    destruct (run_halts _ _ Hrun) as [?|(? & ?)]; [by left|right].
    simpl in *. by rewrite <- Hm, <- Hsz.
  - pose proof (run_pushes _ _ Hrun) as Hp. simpl in Hp.
    pose proof (unscouted_bound _ Hwf).
    pose proof (length_seeds strip).
    rewrite length_fmap, length_reverse in Hp.
    destruct Hwf as (? & _). lia.
Qed.

(** ** Caves read from a matrix *)

Lemma get_cave_of (rows : list (list bool)) (i j : Z) (r : Region.t) :
  Map.get (cave_of rows) i j = Some r <->
  0 <= i /\ 0 <= j /\
  exists strip b,
    rows !! Z.to_nat i = Some strip /\ strip !! Z.to_nat j = Some b /\
    r = Region.new i j b.
Proof.
  rewrite get_Some. unfold cave_of. simpl. split.
  - intros (Hi & Hj & strip' & Hs & Hr). do 2 (split; [done|]).
    rewrite list_lookup_imap in Hs.
    destruct (rows !! Z.to_nat i) as [strip|] eqn:Hrow; [|done].
    injection Hs as <-. rewrite list_lookup_imap in Hr.
    destruct (strip !! Z.to_nat j) as [b|] eqn:Hb; [|done].
    injection Hr as <-. exists strip, b. rewrite !Z2Nat.id by done. done.
  - intros (Hi & Hj & strip & b & Hs & Hb & ->). do 2 (split; [done|]).
    eexists. rewrite list_lookup_imap, Hs. simpl. split; [done|].
    rewrite list_lookup_imap, Hb. simpl. by rewrite !Z2Nat.id.
Qed.

Lemma square_spec (rows : list (list bool)) :
  square rows = true <->
  rows <> [] /\ Forall (fun strip => length strip = length rows) rows.
Proof.
  unfold square. rewrite andb_true_iff, negb_true_iff, bool_decide_eq_false.
  rewrite forallb_forall, Forall_forall.
  split; intros [? H]; (split; [done|]); intros strip Hin.
  - apply list_elem_of_In, H in Hin. by apply bool_decide_eq_true in Hin.
  - apply bool_decide_eq_true, H. by apply list_elem_of_In.
Qed.

Lemma cave_of_well_formed (rows : list (list bool)) :
  square rows = true -> well_formed (cave_of rows).
Proof.
  intros [Hne Hlen]%square_spec.
  assert (Map.size (cave_of rows) = Z.of_nat (length rows)) as Hsize by done.
  split; [|split; [|split]].
  - rewrite Hsize. destruct rows; [done|simpl; lia].
  - rewrite Hsize, Nat2Z.id. unfold cave_of. simpl. by rewrite length_imap.
  - rewrite Hsize. intros i j Hi Hj.
    destruct (lookup_lt_is_Some_2 rows (Z.to_nat i)) as [strip Hs]; [lia|].
    assert (length strip = length rows) as Hl.
    { eapply Forall_lookup_1 in Hlen; [|exact Hs]. done. }
    destruct (lookup_lt_is_Some_2 strip (Z.to_nat j)) as [b Hb]; [lia|].
    exists (Region.new i j b). apply get_cave_of.
    split; [lia|]. split; [lia|]. by exists strip, b.
  - rewrite Hsize. intros i j r (Hi & Hj & strip & b & Hs & Hb & ->)%get_cave_of.
    split; [done|].
    assert (length strip = length rows) as Hl.
    { eapply Forall_lookup_1 in Hlen; [|exact Hs]. done. }
    apply lookup_lt_Some in Hs, Hb. lia.
Qed.

Lemma cave_of_fresh (rows : list (list bool)) (i j : Z) (r : Region.t) :
  Map.get (cave_of rows) i j = Some r -> Region.discovered r = false.
Proof. by intros (_ & _ & strip & b & _ & _ & ->)%get_cave_of. Qed.

Lemma traverse_terminates_witness :
  exists s st',
    Speleo.entries (speleo_on B (cave_of (open_rows 2))) = Ok s /\
    Speleo.traverse (speleo_on B (cave_of (open_rows 2))) = Ok st' /\
    (forall fuel, (Speleo.fuel_for (speleo_on B (cave_of (open_rows 2))) s <= fuel)%nat ->
       Speleo.explore fuel (speleo_on B (cave_of (open_rows 2))) s = Ok st') /\
    (regions_to_scout st'.2 = [] \/
     (B <> A /\
      exists region below,
        regions_to_scout st'.2 = region :: below /\
        Region.y region + 1 = 2)) /\
    Z.of_nat (length (history st'.2)) <= 2 + 2 * 2.
Proof.
  apply (proj2 (traverse_terminates (speleo_on B (cave_of (open_rows 2))))).
  apply cave_of_well_formed. reflexivity.
Defined.

(** ** Where a discovered flag comes from *)

Lemma scouts_history (from : Z * Z) (cs cs' : Map.t * scout) :
  scouts from cs cs' -> exists new, history cs'.2 = new ++ history cs.2.
Proof.
  induction 1 as [cs|c s i j r cs' Hget Hr Hadj _ [new IH]]; [by exists []|].
  simpl in *. exists (new ++ [Pushed (Some from) (Region.mark r)]).
  by rewrite <- app_assoc.
Qed.

Lemma scouts_discovered (from : Z * Z) (cs cs' : Map.t * scout) :
  scouts from cs cs' -> well_formed cs.1 ->
  forall i j r', Map.get cs'.1 i j = Some r' -> Region.discovered r' = true ->
    (exists r, Map.get cs.1 i j = Some r /\ Region.discovered r = true) \/
    (exists e, e ∈ history cs'.2 /\ scouted_as_neighbour (i, j) e).
Proof.
  induction 1 as [cs|c s i0 j0 r cs' Hget Hr Hadj Hsc IH]; [by eauto|].
  simpl in *. intros Hwf i j r' Hget' Hd'.
  destruct (IH (well_formed_set_mark _ _ _ _ Hwf Hget) i j r' Hget' Hd')
    as [(r1 & Hr1 & Hd1)|?]; [|by right].
  simpl in Hr1. rewrite (get_set _ _ _ _ _ r) in Hr1 by done.
  case_decide as Heq; [|by eauto].
  injection Heq as -> ->. injection Hr1 as <-. right.
  exists (Pushed (Some from) (Region.mark r)). split.
  - destruct (scouts_history _ _ _ Hsc) as [new ->]. simpl.
    apply elem_of_app. right. apply list_elem_of_here.
  - destruct Hwf as (_ & _ & _ & Hpos). apply Hpos in Hget as [Hp _].
    split; [done|]. by exists from.
Qed.

Lemma run_history (st st' : Speleo.t * scout) :
  run st st' -> exists new, history st'.2 = new ++ history st.2.
Proof.
  induction 1 as [sp s Hs|sp s region below [sp' s'] Hs Hit
                 |sp s region below [sp1 s1] st' Hs Hit _ [new IH]]; simpl in *.
  - by exists [].
  - apply iteration_cases in Hit as [(_ & _ & _ & -> & ->)|(? & _)]; [|done].
    by exists [].
  - apply iteration_cases in Hit as [(? & _)|(_ & _ & c' & -> & Hsc)]; [done|].
    apply scouts_history in Hsc as [new1 Hnew1]. simpl in *.
    exists (new ++ new1). by rewrite IH, Hnew1, app_assoc.
Qed.

Lemma run_discovered (st st' : Speleo.t * scout) :
  run st st' -> well_formed (Speleo.cave st.1) ->
  forall i j r', Map.get (Speleo.cave st'.1) i j = Some r' ->
    Region.discovered r' = true ->
    (exists r, Map.get (Speleo.cave st.1) i j = Some r /\ Region.discovered r = true) \/
    (exists e, e ∈ history st'.2 /\ scouted_as_neighbour (i, j) e).
Proof.
  induction 1 as [sp s Hs|sp s region below [sp' s'] Hs Hit
                 |sp s region below [sp1 s1] st' Hs Hit Hrun IH]; simpl in *.
  - by eauto.
  - apply iteration_cases in Hit as [(_ & _ & _ & -> & ->)|(? & _)]; [|done].
    rewrite cave_tally. by eauto.
  - apply iteration_cases in Hit as [(? & _)|(_ & _ & c' & -> & Hsc)]; [done|].
    intros Hwf i j r' Hget' Hd'. simpl in IH.
    destruct (IH (scouts_well_formed _ _ _ Hsc Hwf) i j r' Hget' Hd')
      as [(r1 & Hr1 & Hd1)|?]; [|by right].
    destruct (scouts_discovered _ _ _ Hsc Hwf i j r1 Hr1 Hd1)
      as [?|(e & He & Hn)]; [by left|right].
    exists e. split; [|done].
    destruct (run_history _ _ Hrun) as [new ->]. simpl.
    apply elem_of_app. by right.
Qed.

(** ** Flags *)

(** C9. [obstructed] (and the coordinates) of a region never change, and
    [discovered] never goes back from [true] to [false]: in one call of
    [ScoutRegion], in one pass of the loop, and from the beginning to the
    end of a traversal. The regions of a cave are created by
    [ReadMapFromConsole] and [GenerateMap] and dropped by [ResetMap];
    [ScoutRegion] is the only code that writes to one. *)
Theorem flags_only_rise :
  (forall from region s, region_evolves region (ScoutRegion from region s).1) /\
  (forall sp region s fl st',
     Speleo.iteration sp region s = Ok (fl, st') ->
     cave_evolves (Speleo.cave sp) (Speleo.cave st'.1)) /\
  (forall sp st',
     Speleo.traverse sp = Ok st' ->
     cave_evolves (Speleo.cave sp) (Speleo.cave st'.1) /\
     forall i j r, Map.get (Speleo.cave sp) i j = Some r ->
       exists r', Map.get (Speleo.cave st'.1) i j = Some r' /\
         Region.obstructed r' = Region.obstructed r /\
         (Region.discovered r = true -> Region.discovered r' = true)).
Proof.
  split; [|split].
  - intros from region s.
    destruct (ScoutRegion_cases from region s) as [[_ ->]|[_ ->]]; simpl;
      [apply region_evolves_mark|done].
  - intros sp region s fl [sp' s'] Hit. simpl.
    apply iteration_cases in Hit
      as [(_ & _ & _ & -> & ->)|(_ & _ & c' & -> & Hsc)].
    + by rewrite cave_tally.
    + by apply scouts_evolves in Hsc.
  - intros sp st' Htr.
    assert (cave_evolves (Speleo.cave sp) (Speleo.cave st'.1)) as Hev.
    { unfold Speleo.traverse in Htr.
      destruct (Speleo.entries sp) as [s| |]; [|done..].
      apply explore_run, run_evolves in Htr. done. }
    split; [done|]. intros i j r Hget.
    destruct (cave_evolves_get _ _ _ _ _ Hev Hget) as (r' & Hr' & _ & _ & Ho & Hd).
    eauto.
Qed.

Lemma flags_only_rise_witness :
  exists st',
    Speleo.traverse (speleo_on A (cave_of (open_rows 2))) = Ok st' /\
    cave_evolves (cave_of (open_rows 2)) (Speleo.cave st'.1).
Proof.
  eexists. split; [vm_compute; reflexivity|].
  apply (proj2 (proj2 flags_only_rise) (speleo_on A (cave_of (open_rows 2)))).
  vm_compute. reflexivity.
Defined.

(** ** An obstructed first strip *)

Lemma seeds_obstructed (strip : list Region.t) :
  Forall (fun r => Region.obstructed r = true) strip -> seeds strip = [].
Proof.
  unfold seeds. induction 1 as [|r strip Hr _ IH]; [done|].
  rewrite filter_cons_False; [done|].
  unfold scoutable, Region.IsAccessible. rewrite Hr. done.
Qed.

Lemma entry_obstructed_strip (rows : list (list bool)) :
  entry_obstructed rows = true ->
  exists strip,
    at_ (Map.map (cave_of rows)) ENTRY = Some strip /\
    Forall (fun r => Region.obstructed r = true) strip.
Proof.
  destruct rows as [|bs rows]; [done|]. simpl. intros Hall.
  eexists. split; [reflexivity|].
  apply Forall_lookup. intros j r. rewrite list_lookup_imap.
  destruct (bs !! j) as [b|] eqn:Hb; [|done]. intros [= <-]. simpl.
  rewrite forallb_forall in Hall. apply (Hall b).
  apply list_elem_of_In. by eapply list_elem_of_lookup_2.
Qed.

Lemma DisplayPaths_cave_of (sp : Speleo.t) (rows : list (list bool)) :
  Speleo.cave sp = cave_of rows ->
  Speleo.DisplayPaths sp = (fun strip : list bool => (fun _ => 1) <$> strip) <$> rows.
Proof.
  intros Hc. unfold Speleo.DisplayPaths. rewrite Hc. unfold cave_of. simpl.
  apply list_eq. intros i. rewrite !list_lookup_fmap, list_lookup_imap.
  destruct (rows !! i) as [strip|]; [simpl|done]. f_equal.
  apply list_eq. intros j. rewrite !list_lookup_fmap, list_lookup_imap.
  by destruct (strip !! j).
Qed.

(** C6. On a cave whose first strip is all obstructed the traversal
    returns without pushing anything and changes neither the cave nor
    [successful_attempts]; no region of the cave is discovered; and mode [A]
    prints "Exit NOT found" and a matrix of ones, with
    [successful_attempts] at zero. *)
Theorem obstructed_entry (sp : Speleo.t) (rows : list (list bool)) :
  Speleo.cave sp = cave_of rows ->
  square rows = true ->
  entry_obstructed rows = true ->
  Speleo.traverse sp = Ok (sp, {| regions_to_scout := []; history := [] |}) /\
  Speleo.AttemptCaveTraverse sp = Ok sp /\
  (forall i j r, Map.get (Speleo.cave sp) i j = Some r -> Region.discovered r = false) /\
  (forall G (engine : RandomEngine G) (g : G),
     Speleo.exec_mode sp = A ->
     Speleo.Run sp g =
     Ok (Speleo.set_successful_attempts sp 0, g,
         [ExitNotFound;
          Paths ((fun strip : list bool => (fun _ => 1) <$> strip) <$> rows)])).
Proof.
  intros Hc Hsq Hobs.
  assert (forall sp0, Speleo.cave sp0 = cave_of rows ->
    Speleo.traverse sp0 = Ok (sp0, {| regions_to_scout := []; history := [] |}))
    as Htr.
  { intros sp0 Hc0.
    destruct (entry_obstructed_strip rows Hobs) as (strip & Hstrip & Hall).
    unfold Speleo.traverse. rewrite (entries_Ok sp0 strip) by by rewrite Hc0.
    unfold seeded. rewrite (seeds_obstructed strip Hall). done. }
  split; [by apply Htr|]. split; [|split].
  - unfold Speleo.AttemptCaveTraverse. by rewrite Htr.
  - rewrite Hc. apply cave_of_fresh.
  - intros G engine g Hmode. unfold Speleo.Run.
    change (Speleo.exec_mode (Speleo.set_successful_attempts sp 0))
      with (Speleo.exec_mode sp).
    rewrite Hmode.
    unfold Speleo.AttemptCaveTraverse. rewrite Htr by done. simpl.
    rewrite (DisplayPaths_cave_of _ rows) by done. done.
Qed.

Lemma obstructed_entry_witness :
  Speleo.traverse (speleo_on A (cave_of [[true; true]; [false; false]])) =
  Ok (speleo_on A (cave_of [[true; true]; [false; false]]),
      {| regions_to_scout := []; history := [] |}).
Proof.
  apply (obstructed_entry (speleo_on A (cave_of [[true; true]; [false; false]]))
           [[true; true]; [false; false]]); reflexivity.
Defined.

(** ** The entry loop works on copies *)

Lemma seeded_history (strip : list Region.t) (e : push_event) :
  e ∈ history (seeded strip) ->
  origin e = None /\
  exists r, r ∈ strip /\ scoutable r = true /\ pushed e = Region.mark r.
Proof.
  unfold seeded, seeds. simpl.
  intros (r' & -> & Hr')%list_elem_of_fmap. split; [done|].
  apply elem_of_reverse, list_elem_of_fmap in Hr' as (r & -> & Hr).
  apply list_elem_of_filter in Hr as [? ?]. eauto.
Qed.

(** C10. The entry loop changes no region of the cave. Every region it
    pushes is a marked copy of a region of the first strip that is still
    unmarked in the cave the [while] loop starts from. So a region that is
    discovered in the cave when the traversal returns, on a cave read from
    a matrix, was scouted in the loop as a neighbour of a popped region;
    this holds for the first strip as for the others. And on the cave of
    one open region, mode [A] prints "Exit found" and shows the region as
    not discovered. *)
Theorem entry_loop_marks_copies :
  (forall sp s e,
     Speleo.entries sp = Ok s -> e ∈ history s ->
     Speleo.traverse sp = Speleo.explore (Speleo.fuel_for sp s) sp s /\
     origin e = None /\
     Region.discovered (pushed e) = true /\
     exists j r,
       Map.get (Speleo.cave sp) ENTRY j = Some r /\
       Region.discovered r = false /\ pushed e = Region.mark r) /\
  (forall sp rows st' i j r',
     Speleo.cave sp = cave_of rows -> square rows = true ->
     Speleo.traverse sp = Ok st' ->
     Map.get (Speleo.cave st'.1) i j = Some r' ->
     Region.discovered r' = true ->
     exists e, e ∈ history st'.2 /\ scouted_as_neighbour (i, j) e) /\
  (forall G (engine : RandomEngine G) (g : G),
     exists sp sp',
       Speleo.new A 1 0%float 0 [false] = Ok sp /\
       Speleo.Run sp g = Ok (sp', g, [ExitFound; Paths [[1]]])).
Proof.
  split; [|split].
  - intros sp s e Hs He. unfold Speleo.traverse. rewrite Hs. split; [done|].
    unfold Speleo.entries in Hs.
    destruct (at_ (Map.map (Speleo.cave sp)) ENTRY) as [strip|] eqn:Hstrip; [|done].
    simpl in Hs. injection Hs as <-. rewrite entry_loop, !app_nil_r in He.
    apply (seeded_history strip) in He as (Ho & r & Hr & Hsc & ->).
    split; [done|]. split; [done|].
    apply list_elem_of_lookup in Hr as [j Hj]. exists (Z.of_nat j), r.
    split; [|split; [|done]].
    + apply get_Some. split; [done|]. split; [lia|].
      apply at_Some in Hstrip as [_ Hstrip]. exists strip. by rewrite Nat2Z.id.
    + apply andb_true_iff in Hsc as [_ Hu]. by apply negb_true_iff in Hu.
  - intros sp rows st' i j r' Hc Hsq Htr Hget Hd.
    assert (well_formed (Speleo.cave sp)) as Hwf
      by (rewrite Hc; by apply cave_of_well_formed).
    destruct (traverse_run sp Hwf) as (strip & st2 & _ & _ & Htr2 & Hrun).
    assert (st2 = st') as -> by congruence.
    destruct (run_discovered _ _ Hrun Hwf i j r' Hget Hd)
      as [(r & Hr & Hdr)|?]; [|done].
    simpl in Hr. rewrite Hc in Hr. apply cave_of_fresh in Hr. congruence.
  - intros G engine g. do 2 eexists. split; reflexivity.
Qed.

Lemma entry_loop_marks_copies_witness :
  exists st' e,
    Speleo.traverse (speleo_on A (cave_of (open_rows 2))) = Ok st' /\
    Map.get (Speleo.cave st'.1) 0 0 = Some (Region.mark (Region.new 0 0 false)) /\
    e ∈ history st'.2 /\ scouted_as_neighbour (0, 0) e.
Proof.
  eexists.
  assert (Speleo.traverse (speleo_on A (cave_of (open_rows 2))) = Ok _) as Htr
    by (vm_compute; reflexivity).
  destruct (proj1 (proj2 entry_loop_marks_copies)
              (speleo_on A (cave_of (open_rows 2))) (open_rows 2) _ 0 0
              (Region.mark (Region.new 0 0 false))
              eq_refl eq_refl Htr eq_refl eq_refl) as (e & He & Hn).
  exists e. split; [exact Htr|]. split; [reflexivity|]. split; assumption.
Defined.

(** ** Regions pushed twice *)

(** C1, on the cave of two strips of two open regions. The entry loop
    pushes copies of [(0, 0)] and [(0, 1)] and marks neither in the cave;
    popping [(0, 1)] then finds [(0, 0)] unmarked to its west and pushes it
    a second time. In mode [B] the traversal stops at [(1, 1)] with both
    entries for [(0, 0)] on the stack. *)
Theorem entry_pushed_twice :
  exists st',
    Speleo.traverse (speleo_on B (cave_of (open_rows 2))) = Ok st' /\
    pushed_positions st'.2 = [(1, 1); (0, 0); (0, 1); (0, 0)] /\
    Region.pos <$> regions_to_scout st'.2 = [(1, 1); (0, 0); (0, 0)] /\
    ~ NoDup (pushed_positions st'.2) /\
    ~ NoDup (Region.pos <$> regions_to_scout st'.2).
Proof.
  eexists. split; [vm_compute; reflexivity|]. simpl.
  split; [reflexivity|]. split; [reflexivity|].
  split; intros H; apply NoDup_cons in H as [_ H];
    apply NoDup_cons in H as [Hin _]; apply Hin; repeat constructor.
Qed.

(** ** The cave of one region *)

(** C2, on the cave of one open region. Mode [A] reports the exit found,
    and the one region of the cave is left with [discovered] false: it was
    pushed as a copy by the entry loop and has no neighbour from which the
    loop could scout it. *)
Theorem single_region_undiscovered :
  exists st',
    Speleo.traverse (speleo_on A (cave_of (open_rows 1))) = Ok st' /\
    found st'.1 = true /\
    regions_to_scout st'.2 = [] /\
    Map.get (Speleo.cave st'.1) 0 0 = Some (Region.new 0 0 false) /\
    Speleo.DisplayPaths st'.1 = [[1]].
Proof.
  eexists. split; [vm_compute; reflexivity|]. simpl. done.
Qed.

(** ** Counting loops *)

Lemma for_int_nonpos {St : Type} (n : Z) (body : Z -> St -> result St) (s : St) :
  n <= 0 -> for_int n body s = Ok s.
Proof.
  intros Hn. unfold for_int.
  assert (seqZ 0 n = []) as ->; [|done].
  apply length_zero_iff_nil. rewrite length_seqZ. lia.
Qed.

Lemma for_int_succ {St : Type} (n : Z) (body : Z -> St -> result St) (s : St) :
  0 <= n -> for_int (Z.succ n) body s = for_int n body s ≫= body n.
Proof.
  intros Hn. unfold for_int.
  rewrite <- (Z2Nat.id n) at 1 by done. rewrite <- Nat2Z.inj_succ, seqZ_S.
  rewrite foldl_app, Z2Nat.id by done. done.
Qed.

(** The invariant rule for a counting loop. *)
Lemma for_int_invariant {St : Type} (Inv : Z -> St -> Prop) (n : Z)
    (body : Z -> St -> result St) (s : St) :
  0 <= n -> Inv 0 s ->
  (forall i s, 0 <= i < n -> Inv i s -> exists s', body i s = Ok s' /\ Inv (Z.succ i) s') ->
  exists s', for_int n body s = Ok s' /\ Inv n s'.
Proof.
  intros Hn H0 Hstep.
  assert (forall k : nat, Z.of_nat k <= n ->
            exists s', for_int (Z.of_nat k) body s = Ok s' /\ Inv (Z.of_nat k) s') as H.
  { induction k as [|k IH]; intros Hk.
    - exists s. by rewrite for_int_nonpos.
    - destruct IH as (s1 & Hs1 & Hinv1); [lia|].
      destruct (Hstep (Z.of_nat k) s1) as (s2 & Hs2 & Hinv2); [lia|done|].
      exists s2. rewrite Nat2Z.inj_succ, for_int_succ, Hs1 by lia. done. }
  destruct (H (Z.to_nat n)) as (s' & Hs' & Hinv); [lia|].
  rewrite Z2Nat.id in * by done. eauto.
Qed.

(** ** Generated caves *)

Lemma strip_of_snoc (i : nat) (bs : list bool) (b : bool) :
  strip_of i (bs ++ [b]) =
  strip_of i bs ++ [Region.new (Z.of_nat i) (Z.of_nat (length bs)) b].
Proof.
  unfold strip_of. rewrite imap_app. simpl. by rewrite Nat.add_0_r.
Qed.

Lemma strips_of_snoc (rows : list (list bool)) (bs : list bool) :
  strips_of (rows ++ [bs]) = strips_of rows ++ [strip_of (length rows) bs].
Proof.
  unfold strips_of. rewrite imap_app. simpl. by rewrite Nat.add_0_r.
Qed.

Lemma generate_strip `{RandomEngine G} (P : bool -> Prop) (q : float) (n y : Z) (g : G) :
  0 <= n -> 0 <= y ->
  (forall g, P (Bernouilli q g).1) ->
  exists bs g',
    for_int n
      (fun x '(strip, g) =>
         let (b, g) := Bernouilli q g in
         Ok (strip ++ [Region.new y x b], g))
      ([], g) = Ok (strip_of (Z.to_nat y) bs, g') /\
    length bs = Z.to_nat n /\ Forall P bs.
Proof.
  intros Hn Hy HP.
  destruct (for_int_invariant
    (fun k (st : list Region.t * G) =>
       exists bs, st.1 = strip_of (Z.to_nat y) bs /\
         length bs = Z.to_nat k /\ Forall P bs)
    n
    (fun x '(strip, g) =>
       let (b, g) := Bernouilli q g in
       Ok (strip ++ [Region.new y x b], g))
    ([], g)) as ([strip g'] & Hfor & bs & Hstrip & Hlen & Hall).
  - done.
  - by exists [].
  - intros i [strip g1] Hi (bs & Hstrip & Hlen & Hall). simpl in *.
    pose proof (HP g1) as Hb.
    destruct (Bernouilli q g1) as [b g2]. eexists. split; [done|].
    exists (bs ++ [b]). simpl. split; [|split].
    + rewrite strip_of_snoc, Hstrip, Hlen, !Z2Nat.id by lia. done.
    + rewrite length_app. simpl. lia.
    + apply Forall_app. auto.
  - simpl in *. subst strip. eauto.
Qed.

Lemma GenerateMap_cave_of `{RandomEngine G} (P : bool -> Prop) (sp : Speleo.t) (g : G) :
  Map.map (Speleo.cave sp) = [] ->
  0 <= Map.size (Speleo.cave sp) ->
  (forall g, P (Bernouilli (1 - Speleo.accessibility sp)%float g).1) ->
  exists rows g',
    Speleo.GenerateMap sp g = Ok (Speleo.set_cave sp (cave_of rows), g') /\
    length rows = Z.to_nat (Map.size (Speleo.cave sp)) /\
    Forall (fun strip => length strip = length rows /\ Forall P strip) rows.
Proof.
  intros Hmap Hsize HP. set (n := Map.size (Speleo.cave sp)) in *.
  unfold Speleo.GenerateMap. fold n.
  destruct (for_int_invariant
    (fun k (st : Speleo.t * G) =>
       exists rows,
         st.1 = Speleo.set_cave sp {| Map.map := strips_of rows; Map.size := n |} /\
         length rows = Z.to_nat k /\
         Forall (fun strip => length strip = Z.to_nat n /\ Forall P strip) rows)
    n
    (fun y '(sp, g) =>
       '(strip, g) ← for_int (Map.size (Speleo.cave sp))
          (fun x '(strip, g) =>
             let (b, g) := Bernouilli (1 - Speleo.accessibility sp)%float g in
             Ok (strip ++ [Region.new y x b], g))
          ([], g);
       Ok (Speleo.set_cave sp (Speleo.push_strip (Speleo.cave sp) strip), g))
    (sp, g)) as ([sp' g'] & Hfor & rows & Hsp & Hlen & Hall).
  - done.
  - exists []. simpl. split; [|done].
    destruct sp as [m ss a [cm cn] k]. simpl in *. by subst.
  - intros i [sp1 g1] Hi (rows & Hsp1 & Hlen & Hall). simpl in Hsp1. subst sp1.
    simpl.
    destruct (generate_strip P (1 - Speleo.accessibility sp)%float n i g1)
      as (bs & g2 & -> & Hbs & HPbs); [lia..|done|]. simpl.
    eexists. split; [done|]. exists (rows ++ [bs]). simpl. split; [|split].
    + unfold Speleo.set_cave, Speleo.push_strip. simpl.
      rewrite strips_of_snoc, Hlen. done.
    + rewrite length_app. simpl. lia.
    + apply Forall_app. auto.
  - exists rows, g'. rewrite Hfor. simpl in Hsp. subst sp'.
    split; [|split].
    + unfold cave_of. fold strip_of. fold (strips_of rows).
      rewrite Hlen, Z2Nat.id by done. done.
    + done.
    + by rewrite Hlen.
Qed.

(** ** Down the last column *)

Lemma scout_if_cases (cond : bool) (from : Z * Z) (i j : Z) (c c' : Map.t)
    (s s' : scout) :
  Speleo.scout_if cond from i j (c, s) = Ok (c', s') ->
  (c' = c /\ s' = s) \/
  (cond = true /\ exists r, Map.get c i j = Some r /\ scoutable r = true /\
     c' = Map.set c i j (Region.mark r) /\ s' = push (Some from) (Region.mark r) s).
Proof.
  unfold Speleo.scout_if. destruct cond.
  - intros (r & Hget & [(Hr & -> & ->)|(Hr & -> & ->)])%ScoutRegion_ref_cases;
      [right|left]; eauto 8.
  - intros [= <- <-]. by left.
Qed.

Lemma scout_if_push (from : Z * Z) (i j : Z) (c : Map.t) (s : scout) (r : Region.t) :
  Map.get c i j = Some r -> scoutable r = true ->
  Speleo.scout_if true from i j (c, s) =
  Ok (Map.set c i j (Region.mark r), push (Some from) (Region.mark r) s).
Proof.
  intros Hget Hr. unfold Speleo.scout_if, ScoutRegion_ref. simpl. rewrite Hget.
  destruct (ScoutRegion_cases (Some from) r s) as [[_ ->]|[? _]]; [done|congruence].
Qed.

Lemma iteration_continue (sp : Speleo.t) (region : Region.t) (s : scout)
    (st1 : Speleo.t * scout) :
  Speleo.iteration sp region s = Ok (Speleo.Continue, st1) ->
  let y := Region.y region in
  let x := Region.x region in
  let n := Map.size (Speleo.cave sp) in
  exists cs1 cs2 cs3 cs4,
    Speleo.scout_if (bool_decide (y - 1 >= 0)) (y, x) (y - 1) x (Speleo.cave sp, pop s) = Ok cs1 /\
    Speleo.scout_if (bool_decide (x + 1 < n)) (y, x) y (x + 1) cs1 = Ok cs2 /\
    Speleo.scout_if (bool_decide (x - 1 >= 0)) (y, x) y (x - 1) cs2 = Ok cs3 /\
    Speleo.scout_if (bool_decide (y + 1 < n)) (y, x) (y + 1) x cs3 = Ok cs4 /\
    st1 = (Speleo.set_cave (tally sp region) cs4.1, cs4.2).
Proof.
  unfold Speleo.iteration, tally.
  set (y := Region.y region). set (x := Region.x region).
  set (sp1 := if bool_decide (y + 1 = Map.size (Speleo.cave sp)) then _ else sp).
  assert (Hc : Speleo.cave sp1 = Speleo.cave sp)
    by (subst sp1; by case_bool_decide).
  rewrite Hc. destruct (_ && _); [done|]. intros H. simpl.
  destruct (Speleo.scout_if _ _ (y - 1) x _) as [cs1| |] eqn:H1; [simpl in H|done..].
  destruct (Speleo.scout_if _ _ y (x + 1) _) as [cs2| |] eqn:H2; [simpl in H|done..].
  destruct (Speleo.scout_if _ _ y (x - 1) _) as [cs3| |] eqn:H3; [simpl in H|done..].
  destruct (Speleo.scout_if _ _ (y + 1) x _) as [cs4| |] eqn:H4; [simpl in H|done..].
  injection H as <-. exists cs1, cs2, cs3, cs4. done.
Qed.

Lemma scout_if_above (cond : bool) (from : Z * Z) (i j k : Z) (cs cs' : Map.t * scout) :
  Speleo.scout_if cond from i j cs = Ok cs' ->
  well_formed cs.1 -> east_open cs.1 k ->
  i <= k \/ j <> Map.size cs.1 - 1 ->
  well_formed cs'.1 /\ east_open cs'.1 k /\ Map.size cs'.1 = Map.size cs.1.
Proof.
  destruct cs as [c s], cs' as [c' s']. simpl.
  intros [[-> ->]|(_ & r & Hget & Hr & -> & ->)]%scout_if_cases Hwf Heast Hij; [done|].
  split; [by apply well_formed_set_mark|]. split; [|done].
  intros i' Hi'. simpl in *.
  destruct (Heast i' Hi') as (r' & Hget' & Hr'). exists r'. split; [|done].
  rewrite (get_set _ _ _ _ _ r) by done.
  case_decide as Heq; [|done]. injection Heq as -> ->. lia.
Qed.

Lemma iteration_descends (k : Z) (sp : Speleo.t) (region : Region.t)
    (below : list Region.t) (s : scout) (st1 : Speleo.t * scout) :
  descending k (sp, s) ->
  regions_to_scout s = region :: below ->
  Speleo.iteration sp region s = Ok (Speleo.Continue, st1) ->
  k + 1 < Map.size (Speleo.cave sp) ->
  descending (k + 1) st1.
Proof.
  intros (Hwf & Hk & Heast & region' & below' & Hs' & Hpos) Hs Hit Hlt.
  simpl in *. rewrite Hs in Hs'. injection Hs' as <- <-.
  injection Hpos as Hy Hx.
  apply iteration_continue in Hit as (cs1 & cs2 & cs3 & cs4 & H1 & H2 & H3 & H4 & ->).
  rewrite Hy, Hx in *. set (n := Map.size (Speleo.cave sp)) in *.
  apply scout_if_above with (k := k) in H1 as (Hwf1 & He1 & Hn1);
    [|done|done|left; lia].
  apply scout_if_above with (k := k) in H2 as (Hwf2 & He2 & Hn2);
    [|done|done|left; lia].
  apply scout_if_above with (k := k) in H3 as (Hwf3 & He3 & Hn3);
    [|done|done|left; lia].
  assert (Map.size cs3.1 = n) as Hn by (simpl in *; lia).
  destruct (He3 (k + 1)) as (r & Hget & Hr); [lia|]. rewrite Hn in Hget.
  rewrite bool_decide_eq_true_2 in H4 by done.
  destruct cs3 as [c3 s3]. simpl in *.
  rewrite (scout_if_push _ _ _ _ _ r) in H4 by done. injection H4 as <-.
  unfold descending. simpl. rewrite Hn.
  split; [by apply well_formed_set_mark|]. split; [lia|]. split.
  - intros i Hi. simpl in *. destruct (He3 i) as (r' & Hget' & Hr'); [lia|].
    exists r'. split; [|done]. rewrite Hn in *.
    rewrite (get_set _ _ _ _ _ r) by done.
    case_decide as Heq; [|done].
    apply (f_equal fst) in Heq. simpl in Heq. lia.
  - exists (Region.mark r), (regions_to_scout s3). split; [done|].
    destruct Hwf3 as (_ & _ & _ & Hp). by apply Hp in Hget as [? _].
Qed.

Lemma run_descends (st st' : Speleo.t * scout) (k : Z) :
  run st st' -> descending k st ->
  Speleo.successful_attempts st.1 + 1 <= Speleo.successful_attempts st'.1 /\
  (Speleo.exec_mode st.1 <> A -> regions_to_scout st'.2 <> []).
Proof.
  intros Hrun. revert k.
  induction Hrun as [sp s Hs|sp s region below [sp' s'] Hs Hit
                    |sp s region below [sp1 s1] st' Hs Hit Hrun IH];
    intros k Hdesc.
  - destruct Hdesc as (_ & _ & _ & r & b & Hs' & _). simpl in *. congruence.
  - apply iteration_cases in Hit as [(_ & Hy & Hm & -> & ->)|(? & _)]; [|done].
    simpl. split; [|by rewrite Hs].
    unfold tally. rewrite bool_decide_eq_true_2 by done. simpl. lia.
  - pose proof Hit as Hit'.
    apply iteration_cases in Hit' as [(? & _)|(_ & Hhit & c' & -> & Hsc)];
      [done|].
    pose proof Hdesc as (_ & Hk & _ & r & b & Hs' & Hpos). simpl in *.
    rewrite Hs in Hs'. injection Hs' as <- <-. injection Hpos as Hy Hx.
    destruct (decide (k + 1 = Map.size (Speleo.cave sp))) as [Heq|Hne].
    + pose proof (run_successes _ _ Hrun) as [Hle _]. simpl in Hle.
      unfold tally in Hle. rewrite bool_decide_eq_true_2 in Hle by lia.
      simpl in Hle. split; [lia|]. intros Hm. destruct Hm. apply Hhit. lia.
    + destruct (IH (k + 1)) as [IH1 IH2].
      { eapply iteration_descends; eauto. lia. }
      simpl in *. rewrite exec_mode_tally in IH2. split; [|done].
      unfold tally in IH1. rewrite bool_decide_eq_false_2 in IH1 by lia. done.
Qed.

Lemma seeded_top (strip : list Region.t) (r : Region.t) :
  strip !! pred (length strip) = Some r -> scoutable r = true ->
  exists below, regions_to_scout (seeded strip) = Region.mark r :: below.
Proof.
  intros Hr Hsc.
  assert (strip = take (pred (length strip)) strip ++ [r]) as ->.
  { rewrite <- (take_drop_middle strip (pred (length strip)) r) at 1 by done.
    rewrite drop_ge; [done|]. apply lookup_lt_Some in Hr. lia. }
  unfold seeded, seeds. simpl.
  rewrite filter_app, fmap_app, reverse_app.
  rewrite filter_cons_True by done. simpl. by eexists.
Qed.

Lemma traverse_east_open (sp : Speleo.t) :
  well_formed (Speleo.cave sp) ->
  east_open (Speleo.cave sp) (-1) ->
  exists st',
    Speleo.traverse sp = Ok st' /\
    Speleo.successful_attempts sp + 1 <= Speleo.successful_attempts st'.1 /\
    (Speleo.exec_mode sp <> A ->
     Speleo.successful_attempts st'.1 = Speleo.successful_attempts sp + 1 /\
     regions_to_scout st'.2 <> []) /\
    Speleo.exec_mode st'.1 = Speleo.exec_mode sp /\
    Speleo.sample_size st'.1 = Speleo.sample_size sp /\
    Speleo.accessibility st'.1 = Speleo.accessibility sp /\
    Map.size (Speleo.cave st'.1) = Map.size (Speleo.cave sp).
Proof.
  intros Hwf Heast.
  destruct (traverse_run sp Hwf) as (strip & st' & Hstrip & Hlen & Htr & Hrun).
  exists st'. split; [done|].
  assert (descending 0 (sp, seeded strip)) as Hdesc.
  { pose proof Hwf as (Hsize & _ & _ & Hpos).
    split; [done|]. split; [simpl; lia|]. split.
    - intros i Hi. simpl in *. apply Heast. lia.
    - simpl. destruct (Heast 0) as (r & Hget & Hr); [lia|].
      pose proof Hget as (_ & _ & strip' & Hs' & Hj)%get_Some.
      apply at_Some in Hstrip as [_ Hstrip]. unfold ENTRY in Hstrip. simpl in *.
      assert (strip' = strip) as -> by congruence.
      destruct (seeded_top strip r) as [below Hbelow]; [|done|].
      + rewrite Hlen. rewrite <- Hj. f_equal. lia.
      + exists (Region.mark r), below. split; [done|].
        by apply Hpos in Hget as [? _]. }
  destruct (run_descends _ _ 0 Hrun Hdesc) as [Hle Hne].
  destruct (run_fields _ _ Hrun) as (Hm & Hss & Hacc).
  pose proof (run_evolves _ _ Hrun) as [Hsz _].
  simpl in *. split; [done|]. split; [|done].
  intros Hmode. split; [|by apply Hne].
  destruct (run_successes _ _ Hrun) as [_ Hs]. simpl in Hs.
  destruct (Hs Hmode) as [[Hnil _]|[_ ?]]; [|done].
  by apply Hne in Hnil.
Qed.

Lemma east_open_open_rows (rows : list (list bool)) :
  square rows = true ->
  Forall (fun strip => length strip = length rows /\ Forall (fun b => b = false) strip) rows ->
  east_open (cave_of rows) (-1).
Proof.
  intros Hsq Hall i Hi.
  destruct (cave_of_well_formed rows Hsq) as (Hsize & _ & Hin & _).
  destruct (Hin i (Map.size (cave_of rows) - 1)) as [r Hr]; [lia..|].
  exists r. split; [done|].
  apply get_cave_of in Hr as (_ & _ & strip & b & Hs & Hb & ->).
  eapply Forall_lookup_1 in Hall as [_ Hall]; [|exact Hs].
  eapply Forall_lookup_1 in Hall; [|exact Hb]. by subst b.
Qed.

(** ** One sample *)

Lemma traverse_obstructed (sp : Speleo.t) (rows : list (list bool)) :
  Speleo.cave sp = cave_of rows ->
  entry_obstructed rows = true ->
  Speleo.traverse sp = Ok (sp, {| regions_to_scout := []; history := [] |}).
Proof.
  intros Hc Hobs.
  destruct (entry_obstructed_strip rows Hobs) as (strip & Hstrip & Hall).
  unfold Speleo.traverse. rewrite (entries_Ok sp strip) by by rewrite Hc.
  unfold seeded. by rewrite (seeds_obstructed strip Hall).
Qed.

Lemma sample_spec `{RandomEngine G} (P : bool -> Prop) (sp : Speleo.t) (g : G) :
  Speleo.exec_mode sp <> A ->
  Map.map (Speleo.cave sp) = [] ->
  1 <= Map.size (Speleo.cave sp) ->
  (forall g, P (Bernouilli (1 - Speleo.accessibility sp)%float g).1) ->
  exists sp' g',
    Speleo.sample (sp, g) = Ok (sp', g') /\
    same_setup sp sp' /\
    counted_once sp sp' /\
    ((forall b, P b -> b = false) ->
     Speleo.successful_attempts sp' = Speleo.successful_attempts sp + 1) /\
    ((forall b, P b -> b = true) ->
     Speleo.successful_attempts sp' = Speleo.successful_attempts sp).
Proof.
  intros Hmode Hmap Hsize HP.
  destruct (GenerateMap_cave_of P sp g) as (rows & g' & Hgen & Hlen & Hall);
    [done|lia|done|].
  set (sp1 := Speleo.set_cave sp (cave_of rows)) in *.
  assert (square rows = true) as Hsq.
  { apply square_spec. split; [destruct rows; [simpl in *; lia|done]|].
    eapply Forall_impl; [exact Hall|]. by intros strip [? _]. }
  assert (well_formed (Speleo.cave sp1)) as Hwf by by apply cave_of_well_formed.
  destruct (traverse_run sp1 Hwf) as (strip & [sp2 s2] & _ & _ & Htr & Hrun).
  destruct (run_fields _ _ Hrun) as (Hm & Hss & Hacc).
  pose proof (run_evolves _ _ Hrun) as [Hsz _].
  destruct (run_successes _ _ Hrun) as [_ Hs]. simpl in *.
  exists (Speleo.ResetMap sp2), g'.
  unfold Speleo.sample. simpl. rewrite Hgen. simpl.
  unfold Speleo.AttemptCaveTraverse. rewrite Htr. simpl.
  split; [done|]. split; [|split; [|split]].
  - unfold same_setup. simpl. do 3 (split; [done|]).
    rewrite Hsz, Hlen, Z2Nat.id by lia.
    destruct (Speleo.cave sp) as [m n]. simpl in *. by subst m.
  - unfold counted_once. simpl. destruct (Hs Hmode) as [[_ ?]|[_ ?]]; auto.
  - intros Hfalse.
    destruct (traverse_east_open sp1 Hwf) as (st3 & Htr3 & _ & Hinc & _).
    + apply east_open_open_rows; [done|].
      eapply Forall_impl; [exact Hall|]. intros bs [? Hbs]. split; [done|].
      eapply Forall_impl; [exact Hbs|]. done.
    + rewrite Htr in Htr3. injection Htr3 as <-. by apply Hinc.
  - intros Htrue.
    pose proof (traverse_obstructed sp1 rows eq_refl) as Htr0.
    rewrite Htr in Htr0. enough (entry_obstructed rows = true) as Hobs.
    { specialize (Htr0 Hobs). by injection Htr0 as -> _. }
    destruct rows as [|bs rows]; [done|]. simpl.
      apply Forall_cons_1 in Hall as [[_ Hbs] _].
      apply forallb_forall. intros b Hb. apply list_elem_of_In in Hb.
      eapply Forall_forall in Hbs; [|exact Hb]. by apply Htrue.
Qed.

Lemma same_setup_refl (sp : Speleo.t) : same_setup sp sp.
Proof. by repeat split. Qed.

Lemma same_setup_trans (sp1 sp2 sp3 : Speleo.t) :
  same_setup sp1 sp2 -> same_setup sp2 sp3 -> same_setup sp1 sp3.
Proof.
  intros (? & ? & ? & ?) (? & ? & ? & ?). repeat split; congruence.
Qed.

(** ** The sample loop *)

Lemma lookup_last_cons {T : Type} (a : T) (l : list T) :
  (a :: l) !! length l = Some (default a (last l)).
Proof.
  induction l as [|b l _] using rev_ind; [done|].
  rewrite last_snoc, length_app. simpl.
  rewrite Nat.add_1_r. simpl. by rewrite list_lookup_middle.
Qed.

Lemma trials_spec `{RandomEngine G} (P : bool -> Prop) (sp : Speleo.t) (g : G) (n : nat) :
  Speleo.exec_mode sp <> A ->
  Map.map (Speleo.cave sp) = [] ->
  1 <= Map.size (Speleo.cave sp) ->
  (forall g, P (Bernouilli (1 - Speleo.accessibility sp)%float g).1) ->
  exists states,
    trials n (sp, g) = Ok states /\
    length states = n /\
    for_int (Z.of_nat n) (fun _ st => Speleo.sample st) (sp, g) =
      Ok (default (sp, g) (last states)) /\
    (forall i st st',
       ((sp, g) :: states) !! i = Some st -> states !! i = Some st' ->
       same_setup st.1 st'.1 /\ counted_once st.1 st'.1) /\
    same_setup sp (default (sp, g) (last states)).1 /\
    Speleo.successful_attempts sp <=
      Speleo.successful_attempts (default (sp, g) (last states)).1 <=
      Speleo.successful_attempts sp + Z.of_nat n /\
    ((forall b, P b -> b = false) ->
     Speleo.successful_attempts (default (sp, g) (last states)).1 =
     Speleo.successful_attempts sp + Z.of_nat n) /\
    ((forall b, P b -> b = true) ->
     Speleo.successful_attempts (default (sp, g) (last states)).1 =
     Speleo.successful_attempts sp).
Proof.
  intros Hmode Hmap Hsize HP. induction n as [|n IH].
  - exists []. simpl. rewrite for_int_nonpos by done.
    repeat split; try done; try lia.
  - destruct IH
      as (states & Htr & Hlen & Hfor & Hstep & Hsame & Hcount & Hfull & Hnone).
    set (st := default (sp, g) (last states)) in *.
    destruct st as [sp1 g1] eqn:Hst. simpl in *.
    pose proof Hsame as (Hm1 & Hs1 & Ha1 & Hc1).
    destruct (sample_spec P sp1 g1)
      as (sp2 & g2 & Hsample & Hsame2 & Hone & Hfull2 & Hnone2);
      [congruence|congruence|congruence|by rewrite Ha1|].
    exists (states ++ [(sp2, g2)]). rewrite Htr. simpl.
    fold st. rewrite Hst, Hsample. simpl.
    rewrite last_snoc. simpl.
    split; [done|]. split; [rewrite length_app; simpl; lia|].
    split; [|split; [|split; [|split; [|split]]]].
    + rewrite Nat2Z.inj_succ, for_int_succ, Hfor by lia. simpl. done.
    + intros i st1 st2 Hi1 Hi2.
      destruct (decide (i < length states)%nat) as [Hlt|Hge].
      * rewrite lookup_app_l in Hi2 by done.
        apply (Hstep i); [|done].
        destruct i; [done|]. simpl in *.
        rewrite lookup_app_l in Hi1 by lia. done.
      * assert (i = length states) as ->.
        { apply lookup_lt_Some in Hi2. rewrite length_app in Hi2. simpl in *. lia. }
        rewrite list_lookup_middle in Hi2 by done. injection Hi2 as <-.
        assert (st1 = (sp1, g1)) as ->.
        { rewrite <- Hst. subst st.
          change ((((sp, g) :: states) ++ [(sp2, g2)]) !! length states = Some st1)
            in Hi1.
          rewrite lookup_app_l, lookup_last_cons in Hi1 by (simpl; lia).
          by injection Hi1 as <-. }
        done.
    + by eapply same_setup_trans.
    + destruct Hone as [Hone|Hone]; rewrite Hone; lia.
    + intros Hfalse. rewrite Hfull2, Hfull by done. lia.
    + intros Htrue. rewrite Hnone2, Hnone by done. lia.
Qed.

(** ** Case B *)

Lemma rate_unit (k n : Z) : 0 <= k <= n -> 1 <= n -> (0 <= rate k n <= 1)%Q.
Proof.
  intros Hk Hn. unfold rate.
  assert (0 < inject_Z n)%Q as Hpos by (rewrite <- (Zlt_Qlt 0); lia).
  split.
  - apply Qle_shift_div_l; [done|]. rewrite Qmult_0_l.
    rewrite <- (Zle_Qle 0). lia.
  - apply Qle_shift_div_r; [done|]. rewrite Qmult_1_l.
    rewrite <- Zle_Qle. lia.
Qed.



Lemma Run_B_spec `{RandomEngine G} (P : bool -> Prop) (sp : Speleo.t) (g : G) :
  Speleo.exec_mode sp <> A ->
  Map.map (Speleo.cave sp) = [] ->
  1 <= Map.size (Speleo.cave sp) ->
  0 <= Speleo.sample_size sp ->
  (forall g, P (Bernouilli (1 - Speleo.accessibility sp)%float g).1) ->
  exists states sp' g',
    trials (Z.to_nat (Speleo.sample_size sp)) (Speleo.set_successful_attempts sp 0, g) =
      Ok states /\
    Z.of_nat (length states) = Speleo.sample_size sp /\
    (forall i st st',
       ((Speleo.set_successful_attempts sp 0, g) :: states) !! i = Some st ->
       states !! i = Some st' -> counted_once st.1 st'.1) /\
    (sp', g') = default (Speleo.set_successful_attempts sp 0, g) (last states) /\
    Speleo.Run_B sp g =
      Ok (sp', g',
          [Success (Speleo.accessibility sp) (Speleo.successful_attempts sp')
             (Speleo.sample_size sp)]) /\
    same_setup sp sp' /\
    0 <= Speleo.successful_attempts sp' <= Speleo.sample_size sp /\
    ((forall b, P b -> b = false) ->
     Speleo.successful_attempts sp' = Speleo.sample_size sp) /\
    ((forall b, P b -> b = true) ->
     Speleo.successful_attempts sp' = 0).
Proof.
  intros Hmode Hmap Hsize Hss HP.
  set (sp0 := Speleo.set_successful_attempts sp 0).
  destruct (trials_spec P sp0 g (Z.to_nat (Speleo.sample_size sp)))
    as (states & Htr & Hlen & Hfor & Hstep & Hsame & Hcount & Hfull & Hnone);
    try done.
  destruct (default (sp0, g) (last states)) as [sp' g'] eqn:Hlast.
  rewrite Z2Nat.id in * by done. simpl in *.
  exists states, sp', g'. split; [done|]. split; [lia|]. split.
  { intros i st st' H1 H2. by destruct (Hstep i st st' H1 H2). }
  split; [done|]. destruct Hsame as (Hm & Hs & Ha & Hc). simpl in *.
  split; [|split; [done|split; [lia|split]]].
  - unfold Speleo.Run_B. fold sp0.
    change (Speleo.sample_size sp0) with (Speleo.sample_size sp).
    rewrite Hfor. simpl. by rewrite Ha, Hs.
  - intros Hfalse. rewrite Hfull by done. lia.
  - intros Htrue. by rewrite Hnone.
Qed.

Lemma Run_case_B `{RandomEngine G} (sp : Speleo.t) (g : G) :
  Speleo.exec_mode sp = B ->
  Speleo.Run sp g = Speleo.Run_B (Speleo.set_successful_attempts sp 0) g.
Proof.
  intros Hmode. unfold Speleo.Run.
  change (Speleo.exec_mode (Speleo.set_successful_attempts sp 0))
    with (Speleo.exec_mode sp).
  by rewrite Hmode.
Qed.

(** X7. The sample loop of case [B] makes [sample_size] passes, each a fresh
    [GenerateMap], one traversal and a [ResetMap]; a pass leaves
    [successful_attempts] as it was or one higher, since outside mode [A]
    the traversal stops at its first exit; and the line printed holds a
    count between [0] and [sample_size], so a rate between [0] and [1]. The
    cave is empty again at the end. *)
Theorem sampling `{RandomEngine G} (sp : Speleo.t) (g : G) :
  Speleo.exec_mode sp = B ->
  Map.map (Speleo.cave sp) = [] ->
  1 <= Map.size (Speleo.cave sp) ->
  1 <= Speleo.sample_size sp ->
  exists states sp' g',
    trials (Z.to_nat (Speleo.sample_size sp)) (Speleo.set_successful_attempts sp 0, g) =
      Ok states /\
    Z.of_nat (length states) = Speleo.sample_size sp /\
    (forall i st st',
       ((Speleo.set_successful_attempts sp 0, g) :: states) !! i = Some st ->
       states !! i = Some st' -> counted_once st.1 st'.1) /\
    last states = Some (sp', g') /\
    Speleo.Run sp g =
      Ok (sp', g',
          [Success (Speleo.accessibility sp) (Speleo.successful_attempts sp')
             (Speleo.sample_size sp)]) /\
    0 <= Speleo.successful_attempts sp' <= Speleo.sample_size sp /\
    (0 <= rate (Speleo.successful_attempts sp') (Speleo.sample_size sp) <= 1)%Q /\
    Map.map (Speleo.cave sp') = [].
Proof.
  intros Hmode Hmap Hsize Hss.
  destruct (Run_B_spec (fun _ => True) (Speleo.set_successful_attempts sp 0) g)
    as (states & sp' & g' & Htr & Hlen & Hstep & Hlast & Hrun & Hsame & Hk & _);
    [simpl; by rewrite Hmode|done|done|simpl; lia|done|].
  simpl in *. exists states, sp', g'.
  split; [done|]. split; [done|]. split; [done|]. split.
  { destruct (last states) as [st|] eqn:El; [by simpl in Hlast; subst st|].
    apply last_None in El. subst states. simpl in *. lia. }
  split; [by rewrite Run_case_B|]. split; [done|]. split.
  - by apply rate_unit.
  - destruct Hsame as (_ & _ & _ & ->). done.
Qed.

Lemma sampling_witness :
  exists sp' g',
    Speleo.Run (H := cycle_engine) (Speleo.Build B 3 0.5%float (Map.Build [] 2) 0) 0%nat =
      Ok (sp', g', [Success 0.5%float (Speleo.successful_attempts sp') 3]) /\
    0 <= Speleo.successful_attempts sp' <= 3.
Proof.
  destruct (sampling (H := cycle_engine)
              (Speleo.Build B 3 0.5%float (Map.Build [] 2) 0) 0%nat)
    as (states & sp' & g' & _ & _ & _ & _ & Hrun & Hk & _);
    [reflexivity|reflexivity|simpl; lia|simpl; lia|].
  exists sp', g'. split; [exact Hrun|exact Hk].
Defined.

(** ** Accessibility one and accessibility zero *)









(** ** Case C *)

Lemma sweep_spec `{RandomEngine G} (fuel : nat) (sp : Speleo.t) (g : G)
    (out : list output) :
  Speleo.exec_mode sp <> A ->
  Map.map (Speleo.cave sp) = [] ->
  1 <= Map.size (Speleo.cave sp) ->
  0 <= Speleo.sample_size sp ->
  (length (sweep_points fuel (Speleo.accessibility sp)) < fuel)%nat ->
  exists sp' g' out',
    Speleo.sweep fuel sp g out = Ok (sp', g', out ++ out') /\
    Forall2 (success_line (Speleo.sample_size sp)) out'
      (sweep_points fuel (Speleo.accessibility sp)) /\
    PrimFloat.leb (Speleo.accessibility sp') 1%float = false /\
    Speleo.accessibility sp' =
      fold_left (fun p _ => (p + one_percent)%float)
        (sweep_points fuel (Speleo.accessibility sp)) (Speleo.accessibility sp).
Proof.
  revert sp g out. induction fuel as [|fuel IH]; intros sp g out Hmode Hmap Hsize Hss;
    [simpl; lia|].
  cbn [sweep_points Speleo.sweep].
  destruct (PrimFloat.leb (Speleo.accessibility sp) 1) eqn:Hle.
  - cbn [length]. intros Hfuel.
    destruct (Run_B_spec (fun _ => True) sp g)
      as (_ & sp1 & g1 & _ & _ & _ & _ & Hrun & (Hm & Hs & Ha & Hc) & Hk & _);
      try done.
    rewrite Hrun. cbn [mbind result_bind]. rewrite Ha.
    set (sp2 := Speleo.set_accessibility sp1 _).
    destruct (IH sp2 g1 (out ++ [Success (Speleo.accessibility sp)
                                   (Speleo.successful_attempts sp1)
                                   (Speleo.sample_size sp)]))
      as (sp' & g' & out' & Hsw & Hall & Hend & Hacc); subst sp2; simpl;
      [congruence|congruence|congruence|congruence|lia|].
    exists sp', g', (Success (Speleo.accessibility sp)
                       (Speleo.successful_attempts sp1)
                       (Speleo.sample_size sp) :: out').
    rewrite Hsw. simpl in *. rewrite <- app_assoc. split; [done|].
    split; [|done]. constructor; [by eexists|]. by rewrite <- Hs.
  - intros _. exists sp, g, []. rewrite app_nil_r. done.
Qed.

(** X10. Case [C] of [Run] adds the [double] nearest to 0.01 to
    [accessibility] after each pass, starting from 0. After one hundred
    passes the sum is [1 + 3 * 2^-52], the test [accessibility <= 1.0]
    fails and the loop ends: [Run] prints one hundred lines, for one
    hundred strictly increasing accessibilities that are all below 1, the
    last one [0x1.fae147ae147b4p-1] (0.9900000000000007); no pass is made
    at accessibility 1. *)
Theorem sweep_stops_short `{RandomEngine G} (sp : Speleo.t) (g : G) :
  Speleo.exec_mode sp = C ->
  Map.map (Speleo.cave sp) = [] ->
  1 <= Map.size (Speleo.cave sp) ->
  1 <= Speleo.sample_size sp ->
  exists sp' g' out,
    Speleo.Run sp g = Ok (sp', g', out) /\
    Forall2 (success_line (Speleo.sample_size sp)) out (sweep_points Speleo.sweep_fuel 0%float) /\
    length out = 100%nat /\
    head (sweep_points Speleo.sweep_fuel 0%float) = Some 0%float /\
    last (sweep_points Speleo.sweep_fuel 0%float) = Some 0x1.fae147ae147b4p-1%float /\
    increasing (sweep_points Speleo.sweep_fuel 0%float) = true /\
    Forall (fun p => PrimFloat.ltb p 1%float = true) (sweep_points Speleo.sweep_fuel 0%float) /\
    Speleo.accessibility sp' = 0x1.0000000000003p+0%float.
Proof.
  intros Hmode Hmap Hsize Hss.
  assert (Speleo.Run sp g =
          Speleo.sweep Speleo.sweep_fuel
            (Speleo.set_exec_mode
               (Speleo.set_accessibility (Speleo.set_successful_attempts sp 0) 0%float) B)
            g []) as ->.
  { unfold Speleo.Run.
    change (Speleo.exec_mode (Speleo.set_successful_attempts sp 0))
      with (Speleo.exec_mode sp).
    by rewrite Hmode. }
  set (sp0 := Speleo.set_exec_mode _ B).
  assert (length (sweep_points Speleo.sweep_fuel 0%float) = 100%nat) as Hlen
    by (vm_compute; reflexivity).
  destruct (sweep_spec Speleo.sweep_fuel sp0 g [])
    as (sp' & g' & out & Hsw & Hall & _ & Hacc);
    [done|done|done|simpl; lia| |].
  { change (Speleo.accessibility sp0) with 0%float. rewrite Hlen.
    unfold Speleo.sweep_fuel. lia. }
  change (Speleo.accessibility sp0) with 0%float in *.
  change (Speleo.sample_size sp0) with (Speleo.sample_size sp) in *.
  exists sp', g', out. rewrite Hsw. split; [done|]. split; [done|].
  split; [by rewrite (Forall2_length _ _ _ Hall)|].
  split; [vm_compute; reflexivity|]. split; [vm_compute; reflexivity|].
  split; [vm_compute; reflexivity|]. split.
  - apply Forall_forall. intros p Hp.
    assert (forallb (fun p => PrimFloat.ltb p 1%float) (sweep_points Speleo.sweep_fuel 0%float)
            = true) as Hb by (vm_compute; reflexivity).
    rewrite forallb_forall in Hb. apply Hb. by apply list_elem_of_In.
  - rewrite Hacc. vm_compute. reflexivity.
Qed.

Lemma sweep_stops_short_witness :
  exists sp' g' out,
    Speleo.Run (H := cycle_engine) (Speleo.Build C 2 0%float (Map.Build [] 3) 0) 0%nat =
      Ok (sp', g', out) /\
    length out = 100%nat.
Proof.
  destruct (sweep_stops_short (H := cycle_engine)
              (Speleo.Build C 2 0%float (Map.Build [] 3) 0) 0%nat)
    as (sp' & g' & out & Hrun & _ & Hlen & _);
    [reflexivity|reflexivity|simpl; lia|simpl; lia|].
  exists sp', g', out. split; [exact Hrun|exact Hlen].
Defined.

(** ** The stop rule *)

(** X5. In mode [A] the traversal returns with the stack empty. In the other
    modes it returns either with the stack empty and [successful_attempts]
    as it was, or with a region of the last strip still on top of the
    stack (the [break] comes before the [pop]) and [successful_attempts]
    one higher. *)
Theorem stop_at_first_exit (sp : Speleo.t) :
  well_formed (Speleo.cave sp) ->
  exists st',
    Speleo.traverse sp = Ok st' /\
    (Speleo.exec_mode sp = A -> regions_to_scout st'.2 = []) /\
    (Speleo.exec_mode sp <> A ->
     (regions_to_scout st'.2 = [] /\
      Speleo.successful_attempts st'.1 = Speleo.successful_attempts sp) \/
     (exists region below,
        regions_to_scout st'.2 = region :: below /\
        Region.y region + 1 = Map.size (Speleo.cave sp) /\
        Speleo.successful_attempts st'.1 = Speleo.successful_attempts sp + 1)).
Proof.
  intros Hwf.
  destruct (traverse_run sp Hwf) as (strip & st' & _ & _ & Htr & Hrun).
  exists st'. split; [done|].
  destruct (run_fields _ _ Hrun) as (Hm & _).
  pose proof (run_evolves _ _ Hrun) as [Hsz _].
  pose proof (run_halts _ _ Hrun) as Hhalt.
  destruct (run_successes _ _ Hrun) as [_ Hs]. simpl in *.
  split.
  - intros HA. destruct Hhalt as [?|[Hne _]]; [done|]. congruence.
  - intros Hmode. destruct (Hs Hmode) as [[Hnil Hk]|[Hne Hk]]; [by left|right].
    destruct Hhalt as [?|(_ & region & below & Hstack & Hy)]; [done|].
    exists region, below. by rewrite <- Hsz.
Qed.

Lemma stop_at_first_exit_witness :
  exists st',
    Speleo.traverse (speleo_on B (cave_of (open_rows 2))) = Ok st' /\
    Speleo.successful_attempts st'.1 = 1.
Proof.
  destruct (stop_at_first_exit (speleo_on B (cave_of (open_rows 2))))
    as (st' & Htr & _ & HB); [by apply cave_of_well_formed|].
  exists st'. split; [exact Htr|].
  destruct HB as [[Hnil _]|(region & below & _ & _ & Hk)]; [done| |exact Hk].
  exfalso. vm_compute in Htr. injection Htr as <-. discriminate Hnil.
Defined.

(** ** Soundness of the search *)

Lemma evolved_open (rows : list (list bool)) (c : Map.t) (i j : Z) (r : Region.t) :
  cave_evolves (cave_of rows) c -> Map.get c i j = Some r ->
  Region.obstructed r = false -> open_at rows (i, j).
Proof.
  intros Hev Hget Hobs.
  destruct (cave_evolves_get_inv _ _ _ _ _ Hev Hget) as (r0 & Hr0 & _ & _ & Ho & _).
  apply get_cave_of in Hr0 as (Hi & Hj & strip & b & Hs & Hb & ->).
  simpl in Ho. rewrite Hobs in Ho. subst b. unfold open_at. simpl. eauto.
Qed.

Lemma open_evolved (rows : list (list bool)) (c : Map.t) (p : Z * Z) :
  cave_evolves (cave_of rows) c -> open_at rows p ->
  exists r, Map.get c p.1 p.2 = Some r /\ Region.obstructed r = false.
Proof.
  intros Hev (Hi & Hj & strip & Hs & Hb).
  assert (Map.get (cave_of rows) p.1 p.2 = Some (Region.new p.1 p.2 false)) as Hget
    by (apply get_cave_of; eauto 7).
  destruct (cave_evolves_get _ _ _ _ _ Hev Hget) as (r & Hr & _ & _ & Ho & _).
  eauto.
Qed.

Lemma scouts_pushes (from : Z * Z) (cs cs' : Map.t * scout) :
  scouts from cs cs' -> well_formed cs.1 ->
  exists new,
    regions_to_scout cs'.2 = new ++ regions_to_scout cs.2 /\
    history cs'.2 = (Pushed (Some from) <$> new) ++ history cs.2 /\
    Forall (fun r => adjacent from (Region.pos r) /\
                     exists r0, Map.get cs.1 (Region.y r) (Region.x r) = Some r0 /\
                       Region.obstructed r0 = false) new.
Proof.
  induction 1 as [cs|c s i j r cs' Hget Hr Hadj Hsc IH]; intros Hwf.
  - exists []. done.
  - destruct IH as (new & Hst & Hh & Hall); [by apply well_formed_set_mark|].
    simpl in *. exists (new ++ [Region.mark r]).
    rewrite fmap_app, <- !app_assoc. split; [done|]. split; [done|].
    apply Forall_app. split.
    + eapply Forall_impl; [exact Hall|]. intros r1 (Hadj1 & r0 & Hr0 & Ho).
      split; [done|].
      destruct (cave_evolves_get_inv c _ _ _ _
                  (cave_evolves_set c i j r _ Hget (region_evolves_mark r)) Hr0)
        as (r2 & Hr2 & _ & _ & Ho2 & _).
      exists r2. split; [done|congruence].
    + constructor; [|done].
      destruct Hwf as (_ & _ & _ & Hpos).
      destruct (Hpos _ _ _ Hget) as ([= Hy Hx] & _).
      unfold Region.pos. simpl. rewrite Hy, Hx. split; [done|].
      exists r. split; [done|].
      apply andb_true_iff in Hr as [Ha _]. by apply negb_true_iff in Ha.
Qed.

Lemma run_reachable (rows : list (list bool)) (st st' : Speleo.t * scout) :
  run st st' ->
  well_formed (Speleo.cave st.1) ->
  cave_evolves (cave_of rows) (Speleo.cave st.1) ->
  Forall (fun r => reachable rows (Region.pos r)) (regions_to_scout st.2) ->
  (forall e, e ∈ history st'.2 ->
     e ∈ history st.2 \/
     (reachable rows (Region.pos (pushed e)) /\
      exists from, origin e = Some from /\ reachable rows from /\
        adjacent from (Region.pos (pushed e)))) /\
  (Speleo.successful_attempts st.1 < Speleo.successful_attempts st'.1 ->
   exists r, reachable rows (Region.pos r) /\
     Region.y r + 1 = Map.size (Speleo.cave st.1)).
Proof.
  induction 1 as [sp s Hs|sp s region below [sp' s'] Hs Hit
                 |sp s region below [sp1 s1] st' Hs Hit Hrun IH];
    simpl in *; intros Hwf Hev Hstack.
  - split; [by left|lia].
  - apply iteration_cases in Hit as [(_ & Hy & Hm & -> & ->)|(? & _)]; [|done].
    split; [by left|]. intros _. exists region. split; [|done].
    rewrite Hs in Hstack. by apply Forall_cons_1 in Hstack as [? _].
  - apply iteration_cases in Hit as [(? & _)|(_ & Hhit & c' & -> & Hsc)]; [done|].
    rewrite Hs in Hstack. apply Forall_cons_1 in Hstack as [Hreg Hbelow].
    destruct (scouts_pushes _ _ _ Hsc Hwf) as (new & Hst & Hh & Hnew).
    pose proof (scouts_evolves _ _ _ Hsc) as Hev1.
    pose proof (scouts_well_formed _ _ _ Hsc Hwf) as Hwf1.
    simpl in *. rewrite Hs in Hst. simpl in Hst.
    assert (Forall (fun r => reachable rows (Region.pos r) /\
                             adjacent (Region.pos region) (Region.pos r)) new) as Hnewr.
    { eapply Forall_impl; [exact Hnew|]. intros r (Hadj & r0 & Hr0 & Ho).
      simpl in *. split; [|done]. eapply reachable_step; [exact Hreg|done|].
      by eapply evolved_open. }
    destruct IH as [IHh IHk]; [done|by etrans| |].
    { rewrite Hst. apply Forall_app. split; [|done].
      eapply Forall_impl; [exact Hnewr|]. by intros r [? _]. }
    split.
    + intros e He. destruct (IHh e He) as [He1|?]; [|by right].
      rewrite Hh in He1. apply elem_of_app in He1 as [He1|?]; [right|by left].
      apply list_elem_of_fmap in He1 as (r & -> & Hr). simpl.
      eapply Forall_forall in Hnewr; [|exact Hr]. destruct Hnewr as [? ?].
      split; [done|]. by exists (Region.pos region).
    + intros Hlt.
      destruct (decide (Region.y region + 1 = Map.size (Speleo.cave sp))) as [Hy|Hy].
      * by exists region.
      * unfold tally in IHk. rewrite bool_decide_eq_false_2 in IHk by done.
        destruct (IHk Hlt) as (r & Hr & Hyr). exists r. split; [done|].
        rewrite Hyr. by destruct Hev1.
Qed.

Lemma seeded_reachable (rows : list (list bool)) (strip : list Region.t) (r : Region.t) :
  at_ (Map.map (cave_of rows)) ENTRY = Some strip ->
  r ∈ reverse (seeds strip) -> reachable rows (Region.pos r).
Proof.
  intros Hstrip Hr. rewrite elem_of_reverse in Hr. unfold seeds in Hr.
  apply list_elem_of_fmap in Hr as (r0 & -> & Hr0).
  apply list_elem_of_filter in Hr0 as [Hsc Hin].
  apply list_elem_of_lookup in Hin as [j Hj].
  apply at_Some in Hstrip as [_ Hstrip].
  assert (Map.get (cave_of rows) ENTRY (Z.of_nat j) = Some r0) as Hget.
  { apply get_Some. split; [done|]. split; [lia|]. exists strip.
    by rewrite Nat2Z.id. }
  pose proof Hget as (_ & _ & bs & b & Hbs & Hb & ->)%get_cave_of.
  apply andb_true_iff in Hsc as [Ha _]. apply negb_true_iff in Ha.
  simpl in Ha. subst b. apply reachable_entry.
  unfold open_at. simpl. split; [done|]. split; [lia|]. eauto.
Qed.

Lemma traverse_sound (sp : Speleo.t) (rows : list (list bool))
    (st' : Speleo.t * scout) :
  Speleo.cave sp = cave_of rows ->
  square rows = true ->
  Speleo.traverse sp = Ok st' ->
  (forall e, e ∈ history st'.2 -> reachable rows (Region.pos (pushed e))) /\
  (forall i j r,
     Map.get (Speleo.cave st'.1) i j = Some r -> Region.discovered r = true ->
     reachable rows (i, j)) /\
  (Speleo.successful_attempts sp < Speleo.successful_attempts st'.1 ->
   percolates rows).
Proof.
  intros Hc Hsq Htr.
  assert (well_formed (Speleo.cave sp)) as Hwf
    by (rewrite Hc; by apply cave_of_well_formed).
  destruct (traverse_run sp Hwf) as (strip & st2 & Hstrip & _ & Htr2 & Hrun).
  assert (st2 = st') as -> by congruence.
  rewrite Hc in Hstrip.
  destruct (run_reachable rows _ _ Hrun) as [Hh Hk]; simpl.
  { done. }
  { by rewrite Hc. }
  { apply Forall_forall. intros r Hr. by eapply seeded_reachable. }
  simpl in *.
  assert (forall e, e ∈ history st'.2 -> reachable rows (Region.pos (pushed e)))
    as Hhist.
  { intros e He. destruct (Hh e He) as [He0|[? _]]; [|done].
    apply list_elem_of_fmap in He0 as (r & -> & Hr). simpl.
    by eapply seeded_reachable. }
  split; [done|]. split.
  - intros i j r Hget Hd.
    destruct (run_discovered _ _ Hrun Hwf i j r Hget Hd)
      as [(r0 & Hr0 & Hd0)|(e & He & <- & _)]; [|by apply Hhist].
    simpl in Hr0. rewrite Hc in Hr0. apply cave_of_fresh in Hr0. congruence.
  - intros Hlt. destruct (Hk Hlt) as (r & Hr & Hy).
    exists (Region.x r). rewrite Hc in Hy. simpl in Hy.
    replace (Z.of_nat (length rows) - 1) with (Region.y r) by lia. done.
Qed.

(** ** Completeness of the search *)

Lemma marked_evolves (c c' : Map.t) (q : Z * Z) :
  cave_evolves c c' -> marked c q -> marked c' q.
Proof.
  intros Hev Hm rq' Hget' Ho'.
  destruct (cave_evolves_get_inv _ _ _ _ _ Hev Hget') as (rq & Hget & _ & _ & Ho & Hd).
  apply Hd, (Hm rq); [done|congruence].
Qed.

Lemma scout_if_evolves (cond : bool) (from : Z * Z) (i j : Z) (cs cs' : Map.t * scout) :
  Speleo.scout_if cond from i j cs = Ok cs' -> cave_evolves cs.1 cs'.1.
Proof.
  destruct cs as [c s], cs' as [c' s'].
  intros [[-> ->]|(_ & r & Hget & _ & -> & ->)]%scout_if_cases; simpl; [done|].
  eapply cave_evolves_set; eauto using region_evolves_mark.
Qed.

Lemma scout_if_marks (from : Z * Z) (i j : Z) (cs cs' : Map.t * scout) :
  Speleo.scout_if true from i j cs = Ok cs' -> marked cs'.1 (i, j).
Proof.
  destruct cs as [c s], cs' as [c' s']. unfold Speleo.scout_if.
  intros (r & Hget & [(Hr & -> & ->)|(Hr & -> & ->)])%ScoutRegion_ref_cases;
    intros rq Hrq Ho; simpl in *.
  - rewrite (get_set_eq _ _ _ r) in Hrq by done. by injection Hrq as <-.
  - assert (rq = r) as -> by congruence.
    unfold scoutable, Region.IsAccessible, Region.IsUnknown in Hr.
    rewrite Ho in Hr. simpl in Hr. by apply negb_false_iff in Hr.
Qed.

Lemma iteration_closes (sp : Speleo.t) (region : Region.t) (s : scout)
    (st1 : Speleo.t * scout) :
  Speleo.iteration sp region s = Ok (Speleo.Continue, st1) ->
  well_formed (Speleo.cave sp) ->
  closed (Speleo.cave st1.1) region.
Proof.
  intros Hit Hwf. destruct st1 as [sp1 s1]. pose proof Hit as Hit'.
  apply iteration_cases in Hit' as [(? & _)|(_ & _ & c' & Hst1 & Hsc)]; [done|].
  pose proof (scouts_well_formed _ _ _ Hsc Hwf) as Hwf4.
  pose proof (scouts_size _ _ _ Hsc) as Hsz4. simpl in Hwf4, Hsz4.
  apply iteration_continue in Hit as (cs1 & cs2 & cs3 & cs4 & H1 & H2 & H3 & H4 & Heq).
  injection Heq as Hsp1 Hs1. rewrite Hst1 in Hsp1.
  assert (c' = cs4.1) as Hc4 by (by injection Hsp1).
  subst sp1. simpl in *. subst c'. clear Hsp1.
  set (y := Region.y region) in *. set (x := Region.x region) in *.
  set (n := Map.size (Speleo.cave sp)) in *.
  pose proof (scout_if_evolves _ _ _ _ _ _ H2) as E2.
  pose proof (scout_if_evolves _ _ _ _ _ _ H3) as E3.
  pose proof (scout_if_evolves _ _ _ _ _ _ H4) as E4.
  intros [q1 q2] Hadj rq Hget Ho. simpl in Hget.
  assert (0 <= q1 < n /\ 0 <= q2 < n) as [Hq1 Hq2].
  { destruct Hwf4 as (_ & _ & _ & Hpos).
    destruct (Hpos _ _ _ Hget) as (_ & ? & ?).
    apply get_Some in Hget as (? & ? & _). lia. }
  unfold adjacent, Region.pos in Hadj. simpl in Hadj. fold y x in Hadj.
  assert ((q1 = y - 1 /\ q2 = x) \/ (q1 = y /\ q2 = x + 1) \/
          (q1 = y /\ q2 = x - 1) \/ (q1 = y + 1 /\ q2 = x)) as Hcase by lia.
  destruct Hcase as [[-> ->]|[[-> ->]|[[-> ->]|[-> ->]]]].
  - rewrite bool_decide_eq_true_2 in H1 by lia. apply scout_if_marks in H1.
    eapply (marked_evolves cs1.1 cs4.1 (y - 1, x)); [by repeat (etrans; [eassumption|])|done| |done].
    done.
  - rewrite bool_decide_eq_true_2 in H2 by lia. apply scout_if_marks in H2.
    eapply (marked_evolves cs2.1 cs4.1 (y, x + 1)); [by etrans|done| |done]. done.
  - rewrite bool_decide_eq_true_2 in H3 by lia. apply scout_if_marks in H3.
    eapply (marked_evolves cs3.1 cs4.1 (y, x - 1)); [done|done| |done]. done.
  - rewrite bool_decide_eq_true_2 in H4 by lia. apply scout_if_marks in H4.
    by apply (H4 rq).
Qed.

Lemma closed_evolves (c c' : Map.t) (r : Region.t) :
  cave_evolves c c' -> closed c r -> closed c' r.
Proof. intros Hev Hc q Hq. eapply marked_evolves; eauto. Qed.

Lemma tally_le (sp : Speleo.t) (region : Region.t) :
  Speleo.successful_attempts sp <= Speleo.successful_attempts (tally sp region).
Proof. unfold tally. case_bool_decide; simpl; lia. Qed.

Lemma run_exhausts (st st' : Speleo.t * scout) :
  run st st' ->
  regions_to_scout st'.2 = [] ->
  well_formed (Speleo.cave st.1) ->
  (forall r, r ∈ regions_to_scout st.2 -> explored st st' r) /\
  (forall e, e ∈ history st'.2 -> e ∈ history st.2 \/ explored st st' (pushed e)).
Proof.
  induction 1 as [sp s Hs|sp s region below [sp' s'] Hs Hit
                 |sp s region below [sp1 s1] st' Hs Hit Hrun IH];
    simpl in *; intros Hnil Hwf.
  - rewrite Hs. split; [by intros r ?%elem_of_nil|by left].
  - apply iteration_cases in Hit as [(_ & _ & _ & -> & ->)|(? & _)]; [|done].
    congruence.
  - pose proof (iteration_closes _ _ _ _ Hit Hwf) as Hclosed.
    apply iteration_cases in Hit as [(? & _)|(_ & Hhit & c' & -> & Hsc)]; [done|].
    pose proof (scouts_well_formed _ _ _ Hsc Hwf) as Hwf1.
    pose proof (scouts_size _ _ _ Hsc) as Hsz1.
    destruct (scouts_pushes _ _ _ Hsc Hwf) as (new & Hst & Hh & _).
    pose proof (run_evolves _ _ Hrun) as Hev.
    destruct (run_successes _ _ Hrun) as [Hle _].
    pose proof (tally_le sp region) as Hle0.
    simpl in *. rewrite Hs in Hst. simpl in Hst.
    destruct IH as [IHs IHh]; [done|done|].
    assert (forall r, explored (Speleo.set_cave (tally sp region) c', s1) st' r ->
                      explored (sp, s) st' r) as Hlift.
    { intros r [Hc Hk]. split; [done|]. simpl in *. rewrite Hsz1 in Hk.
      intros Hy. specialize (Hk Hy). lia. }
    split.
    + intros r Hr. rewrite Hs in Hr. apply elem_of_cons in Hr as [->|Hr].
      * split; [by eapply closed_evolves|]. simpl. intros Hy.
        unfold tally in Hle. rewrite bool_decide_eq_true_2 in Hle by done.
        simpl in Hle. lia.
      * apply Hlift, IHs. rewrite Hst. apply elem_of_app. by right.
    + intros e He. destruct (IHh e He) as [He1|?]; [|right; by apply Hlift].
      rewrite Hh in He1. apply elem_of_app in He1 as [He1|?]; [right|by left].
      apply list_elem_of_fmap in He1 as (r & -> & Hr). simpl.
      apply Hlift, IHs. rewrite Hst. apply elem_of_app. by left.
Qed.

Lemma exhausted_reaches (sp : Speleo.t) (rows : list (list bool))
    (strip : list Region.t) (st' : Speleo.t * scout) (p : Z * Z) :
  Speleo.cave sp = cave_of rows ->
  square rows = true ->
  at_ (Map.map (Speleo.cave sp)) ENTRY = Some strip ->
  run (sp, seeded strip) st' ->
  regions_to_scout st'.2 = [] ->
  reachable rows p ->
  exists e, e ∈ history st'.2 /\ Region.pos (pushed e) = p /\
    explored (sp, seeded strip) st' (pushed e).
Proof.
  intros Hc Hsq Hstrip Hrun Hnil.
  assert (well_formed (Speleo.cave sp)) as Hwf
    by (rewrite Hc; by apply cave_of_well_formed).
  destruct (run_exhausts _ _ Hrun Hnil Hwf) as [Hs Hh]. simpl in *.
  destruct (run_history _ _ Hrun) as [new Hnew]. simpl in Hnew.
  assert (forall e, e ∈ history st'.2 ->
            explored (sp, seeded strip) st' (pushed e)) as Hall.
  { intros e He. destruct (Hh e He) as [He0|?]; [|done].
    apply list_elem_of_fmap in He0 as (r & -> & Hr). by apply Hs. }
  induction 1 as [j Hopen|p q Hp IH Hadj Hopen].
  - destruct Hopen as (_ & Hj & bs & Hbs & Hb). simpl in *.
    assert (Map.get (Speleo.cave sp) ENTRY j = Some (Region.new ENTRY j false)) as Hget.
    { rewrite Hc. apply get_cave_of. split; [done|]. split; [done|]. eauto. }
    apply get_Some in Hget as (_ & _ & strip' & Hs' & Hr).
    apply at_Some in Hstrip as [_ Hstrip].
    assert (strip' = strip) as -> by congruence.
    assert (Region.mark (Region.new ENTRY j false) ∈ reverse (seeds strip)) as Hin.
    { rewrite elem_of_reverse. unfold seeds. apply list_elem_of_fmap.
      eexists. split; [done|]. apply list_elem_of_filter. split; [done|].
      by eapply list_elem_of_lookup_2. }
    exists (Pushed None (Region.mark (Region.new ENTRY j false))).
    split; [|split; [done|by apply Hs]].
    rewrite Hnew. apply elem_of_app. right. simpl.
    apply list_elem_of_fmap. eauto.
  - destruct IH as (e & He & Hpe & Hclosed & _).
    assert (cave_evolves (cave_of rows) (Speleo.cave st'.1)) as Hev.
    { rewrite <- Hc. apply (run_evolves _ _ Hrun). }
    destruct (open_evolved rows _ q Hev Hopen) as (rq & Hrq & Ho).
    assert (Region.discovered rq = true) as Hd.
    { apply (Hclosed q); [by rewrite Hpe|done..]. }
    destruct (run_discovered _ _ Hrun Hwf q.1 q.2 rq Hrq Hd)
      as [(r0 & Hr0 & Hd0)|(e' & He' & Hpos' & _)].
    + simpl in Hr0. rewrite Hc in Hr0. apply cave_of_fresh in Hr0. congruence.
    + exists e'. split; [done|]. split; [by destruct q|by apply Hall].
Qed.

Lemma traverse_complete (sp : Speleo.t) (rows : list (list bool))
    (st' : Speleo.t * scout) :
  Speleo.cave sp = cave_of rows ->
  square rows = true ->
  Speleo.traverse sp = Ok st' ->
  percolates rows ->
  Speleo.successful_attempts sp < Speleo.successful_attempts st'.1.
Proof.
  intros Hc Hsq Htr [j Hj].
  assert (well_formed (Speleo.cave sp)) as Hwf
    by (rewrite Hc; by apply cave_of_well_formed).
  destruct (traverse_run sp Hwf) as (strip & st2 & Hstrip & _ & Htr2 & Hrun).
  assert (st2 = st') as -> by congruence.
  destruct (run_successes _ _ Hrun) as [Hle Hmode]. simpl in *.
  destruct (decide (regions_to_scout st'.2 = [])) as [Hnil|Hne].
  - destruct (exhausted_reaches sp rows strip st' _ Hc Hsq Hstrip Hrun Hnil Hj)
      as (e & _ & Hpos & _ & Hk).
    simpl in Hk. apply Hk. injection Hpos as Hy _.
    rewrite Hy, Hc. simpl. lia.
  - destruct (decide (Speleo.exec_mode sp = A)) as [HA|HnA].
    + destruct (run_halts _ _ Hrun) as [?|[Hm _]]; [done|].
      destruct (run_fields _ _ Hrun) as (Hm' & _). simpl in *. congruence.
    + destruct (Hmode HnA) as [[? _]|[_ ->]]; [done|lia].
Qed.

(** X1. The search is correct. On a cave read from a square matrix the
    traversal raises [successful_attempts] exactly when an accessible walk
    leads from the first strip to the last; outside mode [A] it raises it
    by exactly one then; and mode [A] prints "Exit found" in that case and
    "Exit NOT found" otherwise. *)
Theorem found_iff_percolates (sp : Speleo.t) (rows : list (list bool)) :
  Speleo.cave sp = cave_of rows ->
  square rows = true ->
  exists st',
    Speleo.traverse sp = Ok st' /\
    (Speleo.successful_attempts sp < Speleo.successful_attempts st'.1 <->
     percolates rows) /\
    (~ percolates rows ->
     Speleo.successful_attempts st'.1 = Speleo.successful_attempts sp) /\
    (Speleo.exec_mode sp <> A -> percolates rows ->
     Speleo.successful_attempts st'.1 = Speleo.successful_attempts sp + 1) /\
    (forall G (engine : RandomEngine G) (g : G),
       Speleo.exec_mode sp = A ->
       exists sp' o,
         Speleo.Run sp g = Ok (sp', g, [o; Paths (Speleo.DisplayPaths sp')]) /\
         (o = ExitFound <-> percolates rows) /\
         (o = ExitNotFound <-> ~ percolates rows)).
Proof.
  intros Hc Hsq.
  assert (forall sp0, Speleo.cave sp0 = cave_of rows ->
    exists st', Speleo.traverse sp0 = Ok st' /\
      (Speleo.successful_attempts sp0 < Speleo.successful_attempts st'.1 <->
       percolates rows) /\
      Speleo.successful_attempts sp0 <= Speleo.successful_attempts st'.1 /\
      (Speleo.exec_mode sp0 <> A -> percolates rows ->
       Speleo.successful_attempts st'.1 = Speleo.successful_attempts sp0 + 1))
    as Hgen.
  { intros sp0 Hc0.
    assert (well_formed (Speleo.cave sp0)) as Hwf
      by (rewrite Hc0; by apply cave_of_well_formed).
    destruct (traverse_run sp0 Hwf) as (strip & st' & _ & _ & Htr & Hrun).
    exists st'. split; [done|].
    destruct (run_successes _ _ Hrun) as [Hle Hmode]. simpl in *.
    split; [|split; [done|]].
    - split; [by apply (traverse_sound sp0 rows st')
             |by apply (traverse_complete sp0 rows st')].
    - intros HnA Hperc.
      pose proof (traverse_complete sp0 rows st' Hc0 Hsq Htr Hperc).
      destruct (Hmode HnA) as [[_ ?]|[_ ?]]; lia. }
  destruct (Hgen sp Hc) as (st' & Htr & Hiff & Hle & HB).
  exists st'. split; [done|]. split; [done|]. split; [|split; [done|]].
  - intros Hnp. destruct (decide (Speleo.successful_attempts sp <
                                  Speleo.successful_attempts st'.1)) as [Hlt|?]; [|lia].
    by apply Hiff in Hlt.
  - intros G engine g HA.
    destruct (Hgen (Speleo.set_successful_attempts sp 0) Hc)
      as ([sp' s'] & Htr0 & Hiff0 & _). simpl in *.
    exists sp', (if bool_decide (Speleo.successful_attempts sp' > 0)
                 then ExitFound else ExitNotFound).
    split.
    + unfold Speleo.Run.
      change (Speleo.exec_mode (Speleo.set_successful_attempts sp 0))
        with (Speleo.exec_mode sp).
      rewrite HA. unfold Speleo.AttemptCaveTraverse. by rewrite Htr0.
    + case_bool_decide as Hk; (split; split; try done).
      * intros _. apply Hiff0. lia.
      * intros Hnp. destruct Hnp. apply Hiff0. lia.
      * intros Hp. apply Hiff0 in Hp. lia.
      * intros _ Hp. apply Hiff0 in Hp. lia.
Qed.

Lemma found_iff_percolates_witness :
  exists st',
    Speleo.traverse (speleo_on B (cave_of [[false; true]; [true; false]])) = Ok st' /\
    (0 < Speleo.successful_attempts st'.1 <-> percolates [[false; true]; [true; false]]).
Proof.
  destruct (found_iff_percolates (speleo_on B (cave_of [[false; true]; [true; false]]))
              [[false; true]; [true; false]] eq_refl eq_refl)
    as (st' & Htr & Hiff & _).
  exists st'. split; [exact Htr|exact Hiff].
Defined.

(** ** What mode A displays *)

Lemma shown_DisplayPaths (sp : Speleo.t) (i j : Z) :
  shown (Speleo.DisplayPaths sp) i j =
  (fun r => Z.b2z (negb (Region.discovered r))) <$> Map.get (Speleo.cave sp) i j.
Proof.
  unfold shown, Speleo.DisplayPaths, Map.get, at_.
  destruct (decide (0 <= i)); [|done]. rewrite list_lookup_fmap.
  destruct (Map.map (Speleo.cave sp) !! Z.to_nat i) as [strip|]; [simpl|done].
  destruct (decide (0 <= j)); [|done]. by rewrite list_lookup_fmap.
Qed.

Lemma reachable_open (rows : list (list bool)) (p : Z * Z) :
  reachable rows p -> open_at rows p.
Proof. by destruct 1. Qed.

Lemma shown_explored (sp : Speleo.t) (rows : list (list bool))
    (st' : Speleo.t * scout) (i j : Z) :
  Speleo.cave sp = cave_of rows ->
  square rows = true ->
  Speleo.exec_mode sp = A ->
  Speleo.traverse sp = Ok st' ->
  open_at rows (i, j) ->
  (exists p, reachable rows p /\ adjacent p (i, j)) ->
  shown (Speleo.DisplayPaths st'.1) i j = Some 0.
Proof.
  intros Hc Hsq HA Htr Hopen (p & Hp & Hadj).
  assert (well_formed (Speleo.cave sp)) as Hwf
    by (rewrite Hc; by apply cave_of_well_formed).
  destruct (traverse_run sp Hwf) as (strip & st2 & Hstrip & _ & Htr2 & Hrun).
  assert (st2 = st') as -> by congruence.
  assert (cave_evolves (cave_of rows) (Speleo.cave st'.1)) as Hev.
  { rewrite <- Hc. apply (run_evolves _ _ Hrun). }
  assert (regions_to_scout st'.2 = []) as Hnil.
  { destruct (run_halts _ _ Hrun) as [?|[Hm _]]; [done|].
    destruct (run_fields _ _ Hrun) as (Hm' & _). simpl in *. congruence. }
  destruct (exhausted_reaches sp rows strip st' p Hc Hsq Hstrip Hrun Hnil Hp)
    as (e & _ & Hpos & Hclosed & _).
  destruct (open_evolved rows _ (i, j) Hev Hopen) as (r & Hr & Ho).
  simpl in Hr. rewrite shown_DisplayPaths, Hr. simpl.
  rewrite (Hclosed (i, j)); [done|by rewrite Hpos|done|done].
Qed.

Lemma shown_scouted (sp : Speleo.t) (rows : list (list bool))
    (st' : Speleo.t * scout) (i j : Z) :
  Speleo.cave sp = cave_of rows ->
  square rows = true ->
  Speleo.traverse sp = Ok st' ->
  shown (Speleo.DisplayPaths st'.1) i j = Some 0 ->
  open_at rows (i, j) /\ exists p, reachable rows p /\ adjacent p (i, j).
Proof.
  intros Hc Hsq Htr.
  assert (well_formed (Speleo.cave sp)) as Hwf
    by (rewrite Hc; by apply cave_of_well_formed).
  destruct (traverse_run sp Hwf) as (strip & st2 & Hstrip & _ & Htr2 & Hrun).
  assert (st2 = st') as -> by congruence.
  rewrite shown_DisplayPaths.
  destruct (Map.get (Speleo.cave st'.1) i j) as [r|] eqn:Hget; [simpl|done].
  destruct (Region.discovered r) eqn:Hd; [intros _|done].
  destruct (run_discovered _ _ Hrun Hwf i j r Hget Hd)
    as [(r0 & Hr0 & Hd0)|(e & He & Hpos & from & Hfrom & Hadj)].
  { simpl in Hr0. rewrite Hc in Hr0. apply cave_of_fresh in Hr0. congruence. }
  destruct (run_reachable rows _ _ Hrun) as [Hh _]; simpl.
  { done. }
  { by rewrite Hc. }
  { apply Forall_forall. intros r1 Hr1. eapply seeded_reachable; [|done].
    by rewrite <- Hc. }
  destruct (Hh e He) as [He0|(Hre & from' & Hfrom' & Hrf & _)].
  - simpl in He0. apply list_elem_of_fmap in He0 as (r1 & -> & _). done.
  - rewrite Hpos in Hre. split; [by apply reachable_open|].
    exists from. split; [congruence|done].
Qed.



(** ** The cave with no obstructed region *)

Lemma square_open_rows (n : nat) : (1 <= n)%nat -> square (open_rows n) = true.
Proof.
  intros Hn. apply square_spec. unfold open_rows. split.
  - destruct n; [lia|done].
  - apply Forall_replicate. by rewrite !length_replicate.
Qed.

Lemma open_at_open_rows (n : nat) (p : Z * Z) :
  open_at (open_rows n) p <-> 0 <= p.1 < Z.of_nat n /\ 0 <= p.2 < Z.of_nat n.
Proof.
  unfold open_at, open_rows. split.
  - intros (? & ? & strip & [-> ?]%lookup_replicate & [_ ?]%lookup_replicate). lia.
  - intros [? ?]. split; [lia|]. split; [lia|].
    exists (replicate n false). split; apply lookup_replicate_2; lia.
Qed.

Lemma reachable_open_rows (n : nat) (i j : Z) :
  0 <= i < Z.of_nat n -> 0 <= j < Z.of_nat n -> reachable (open_rows n) (i, j).
Proof.
  intros Hi Hj.
  assert (forall k : nat, (k < n)%nat -> reachable (open_rows n) (Z.of_nat k, j)) as H.
  { induction k as [|k IH]; intros Hk.
    - apply reachable_entry. apply open_at_open_rows. unfold ENTRY. simpl. lia.
    - apply (reachable_step _ (Z.of_nat k, j)).
      + apply IH. lia.
      + unfold adjacent. simpl. lia.
      + apply open_at_open_rows. simpl. lia. }
  rewrite <- (Z2Nat.id i) by lia. apply H. lia.
Qed.

(** X3. On a cave of side [n] with no obstructed region, mode [A] finds the
    exit; for [n >= 2] it leaves every region discovered (the matrix
    printed is all zeros), and for [n = 1] it leaves the one region not
    discovered (the matrix printed is a single 1). *)
Theorem open_cave_shown (n : nat) (sp : Speleo.t) (st' : Speleo.t * scout) :
  Speleo.cave sp = cave_of (open_rows n) ->
  (1 <= n)%nat ->
  Speleo.exec_mode sp = A ->
  Speleo.traverse sp = Ok st' ->
  Speleo.successful_attempts sp < Speleo.successful_attempts st'.1 /\
  forall i j, 0 <= i < Z.of_nat n -> 0 <= j < Z.of_nat n ->
    shown (Speleo.DisplayPaths st'.1) i j = Some (if decide (n = 1%nat) then 1 else 0).
Proof.
  intros Hc Hn HA Htr.
  pose proof (square_open_rows n Hn) as Hsq. split.
  - apply (traverse_complete sp (open_rows n) st' Hc Hsq Htr).
    exists 0. unfold open_rows. rewrite length_replicate.
    apply reachable_open_rows; lia.
  - intros i j Hi Hj. case_decide as Hn1.
    + subst n. assert (i = 0) as -> by lia. assert (j = 0) as -> by lia.
      assert (well_formed (Speleo.cave sp)) as Hwf
        by (rewrite Hc; by apply cave_of_well_formed).
      destruct (traverse_run sp Hwf) as (strip & st2 & _ & _ & Htr2 & Hrun).
      assert (st2 = st') as -> by congruence.
      pose proof (run_evolves _ _ Hrun) as Hev. simpl in Hev. rewrite Hc in Hev.
      destruct (cave_evolves_get _ _ 0 0 (Region.new 0 0 false) Hev) as (r & Hr & _);
        [done|].
      destruct (Region.discovered r) eqn:Hd.
      * exfalso.
        assert (shown (Speleo.DisplayPaths st'.1) 0 0 = Some 0) as Hshown
          by (by rewrite shown_DisplayPaths, Hr; simpl; rewrite Hd).
        apply (shown_scouted sp (open_rows 1) st') in Hshown
          as (_ & [p1 p2] & Hp & Hadj); try done.
        apply reachable_open, open_at_open_rows in Hp. unfold adjacent in Hadj.
        simpl in *. lia.
      * rewrite shown_DisplayPaths, Hr. simpl. by rewrite Hd.
    + apply (shown_explored sp (open_rows n) st'); try done.
      * apply open_at_open_rows. simpl. lia.
      * destruct (decide (i = 0)) as [->|Hi0].
        -- exists (1, j). split; [apply reachable_open_rows; lia|].
           unfold adjacent. simpl. lia.
        -- exists (i - 1, j). split; [apply reachable_open_rows; lia|].
           unfold adjacent. simpl. lia.
Qed.

Lemma open_cave_shown_witness :
  exists st',
    Speleo.traverse (speleo_on A (cave_of (open_rows 3))) = Ok st' /\
    shown (Speleo.DisplayPaths st'.1) 0 0 = Some 0.
Proof.
  eexists. split; [vm_compute; reflexivity|].
  refine (proj2 (open_cave_shown 3 (speleo_on A (cave_of (open_rows 3))) _
                   eq_refl _ eq_refl _) 0 0 _ _).
  - lia.
  - vm_compute. reflexivity.
  - lia.
  - lia.
Defined.

(** ** How often a region is pushed *)

Lemma scouts_fresh (from : Z * Z) (cs cs' : Map.t * scout) :
  scouts from cs cs' -> well_formed cs.1 ->
  exists new,
    history cs'.2 = (Pushed (Some from) <$> new) ++ history cs.2 /\
    NoDup (Region.pos <$> new) /\
    Forall (fun r => discovered_at cs.1 false (Region.pos r)) new /\
    Forall (fun r => discovered_at cs'.1 true (Region.pos r)) new.
Proof.
  induction 1 as [cs|c s i j r cs' Hget Hr Hadj Hsc IH]; intros Hwf.
  - exists []. repeat split; try done. constructor.
  - destruct IH as (new & Hh & Hnd & Hold & Hnew); [by apply well_formed_set_mark|].
    simpl in *. exists (new ++ [Region.mark r]).
    assert (Region.pos (Region.mark r) = (i, j)) as Hpos.
    { destruct Hwf as (_ & _ & _ & Hp). by destruct (Hp _ _ _ Hget) as [? _]. }
    assert (forall r1, r1 ∈ new -> Region.pos r1 <> (i, j)) as Hne.
    { intros r1 Hr1 Heq. eapply Forall_forall in Hold; [|exact Hr1].
      destruct Hold as (r0 & Hr0 & Hd0). rewrite Heq in Hr0. simpl in Hr0.
      rewrite (get_set_eq _ _ _ r) in Hr0 by done. by injection Hr0 as <-. }
    rewrite fmap_app, <- !app_assoc. split; [done|]. split; [|split].
    + rewrite fmap_app. apply NoDup_app. split; [done|]. split.
      * intros p Hp Hp'. simpl in Hp'. apply list_elem_of_singleton in Hp'.
        apply list_elem_of_fmap in Hp as (r1 & -> & Hr1).
        apply (Hne r1 Hr1). congruence.
      * simpl. apply NoDup_singleton.
    + apply Forall_app. split.
      * apply Forall_forall. intros r1 Hr1. pose proof (Hne r1 Hr1) as Hn.
        eapply Forall_forall in Hold; [|exact Hr1].
        destruct Hold as (r0 & Hr0 & Hd0). exists r0. split; [|done].
        rewrite (get_set _ _ _ _ _ r) in Hr0 by done.
        case_decide as Heq; [|done]. destruct Hn. by destruct (Region.pos r1).
      * constructor; [|done]. rewrite Hpos. exists r. split; [done|].
        apply andb_true_iff in Hr as [_ Hu]. by apply negb_true_iff in Hu.
    + apply Forall_app. split; [done|]. constructor; [|done].
      rewrite Hpos. apply scouts_evolves in Hsc. simpl in Hsc.
      destruct (cave_evolves_get _ _ i j (Region.mark r) Hsc) as (r' & Hr' & _ & _ & _ & Hd).
      { by eapply get_set_eq. }
      exists r'. split; [done|]. by apply Hd.
Qed.

Lemma run_fresh (st st' : Speleo.t * scout) :
  run st st' -> well_formed (Speleo.cave st.1) ->
  exists new,
    history st'.2 = new ++ history st.2 /\
    Forall (fun e => origin e <> None) new /\
    NoDup ((fun e => Region.pos (pushed e)) <$> new) /\
    Forall (fun e => discovered_at (Speleo.cave st.1) false (Region.pos (pushed e))) new.
Proof.
  induction 1 as [sp s Hs|sp s region below [sp' s'] Hs Hit
                 |sp s region below [sp1 s1] st' Hs Hit Hrun IH];
    simpl in *; intros Hwf.
  - exists []. repeat split; try done. constructor.
  - apply iteration_cases in Hit as [(_ & _ & _ & -> & ->)|(? & _)]; [|done].
    exists []. repeat split; try done. constructor.
  - apply iteration_cases in Hit as [(? & _)|(_ & _ & c' & -> & Hsc)]; [done|].
    destruct (scouts_fresh _ _ _ Hsc Hwf) as (now & Hh & Hnd & Hold & Hnew).
    pose proof (scouts_evolves _ _ _ Hsc) as Hev.
    destruct IH as (later & Hh' & Horig & Hnd' & Hold');
      [by apply (scouts_well_formed _ _ _ Hsc)|].
    simpl in *.
    exists (later ++ (Pushed (Some (Region.pos region)) <$> now)).
    rewrite Hh', Hh, <- app_assoc. split; [done|]. split; [|split].
    + apply Forall_app. split; [done|]. apply Forall_fmap.
      by apply Forall_true.
    + rewrite fmap_app. apply NoDup_app. split; [done|]. split.
      * intros p Hp Hp'.
        apply list_elem_of_fmap in Hp as (e & -> & He).
        apply list_elem_of_fmap in Hp' as (e' & Heq & He').
        apply list_elem_of_fmap in He' as (r & -> & Hr). simpl in Heq.
        eapply Forall_forall in Hold'; [|exact He].
        eapply Forall_forall in Hnew; [|exact Hr].
        destruct Hold' as (r0 & Hr0 & Hd0). destruct Hnew as (r1 & Hr1 & Hd1).
        rewrite Heq in Hr0. congruence.
      * rewrite <- list_fmap_compose. done.
    + apply Forall_app. split.
      * eapply Forall_impl; [exact Hold'|]. intros e (r1 & Hr1 & Hd1).
        destruct (cave_evolves_get_inv _ _ _ _ _ Hev Hr1) as (r0 & Hr0 & _ & _ & _ & Hd).
        exists r0. split; [done|]. destruct (Region.discovered r0); [|done].
        rewrite Hd in Hd1; done.
      * apply Forall_fmap. eapply Forall_impl; [exact Hold|]. done.
Qed.

Lemma entry_strip_positions (c : Map.t) (strip : list Region.t) (j : nat) (r : Region.t) :
  well_formed c -> at_ (Map.map c) ENTRY = Some strip ->
  strip !! j = Some r -> Region.pos r = (ENTRY, Z.of_nat j).
Proof.
  intros (_ & _ & _ & Hpos) [_ Hstrip]%at_Some Hj.
  apply (Hpos ENTRY (Z.of_nat j) r). apply get_Some.
  split; [done|]. split; [lia|]. exists strip. by rewrite Nat2Z.id.
Qed.

Lemma seeds_NoDup (c : Map.t) (strip : list Region.t) :
  well_formed c -> at_ (Map.map c) ENTRY = Some strip ->
  NoDup (Region.pos <$> reverse (seeds strip)) /\
  Forall (fun r => Region.y r = ENTRY) (reverse (seeds strip)).
Proof.
  intros Hwf Hstrip.
  assert (forall x y, x ∈ strip -> y ∈ strip -> Region.pos x = Region.pos y -> x = y)
    as Hinj.
  { intros x y [i Hi]%list_elem_of_lookup [j Hj]%list_elem_of_lookup Heq.
    rewrite (entry_strip_positions c strip i x),
            (entry_strip_positions c strip j y) in Heq by done.
    assert (i = j) as -> by (injection Heq; lia). congruence. }
  assert (NoDup strip) as Hnd.
  { apply NoDup_alt. intros i j x Hi Hj.
    pose proof (entry_strip_positions c strip i x Hwf Hstrip Hi) as H1.
    pose proof (entry_strip_positions c strip j x Hwf Hstrip Hj) as H2.
    rewrite H1 in H2. injection H2. lia. }
  split.
  - rewrite fmap_reverse, reverse_Permutation. unfold seeds.
    rewrite <- list_fmap_compose.
    apply NoDup_fmap_2_strong; [|by apply NoDup_filter].
    intros x y [_ Hx]%list_elem_of_filter [_ Hy]%list_elem_of_filter Heq.
    by apply Hinj.
  - apply Forall_forall. intros r Hr. rewrite elem_of_reverse in Hr.
    unfold seeds in Hr. apply list_elem_of_fmap in Hr as (r0 & -> & Hr0).
    apply list_elem_of_filter in Hr0 as [_ Hr0].
    apply list_elem_of_lookup in Hr0 as [j Hj].
    pose proof (entry_strip_positions c strip j r0 Hwf Hstrip Hj) as Hp.
    by injection Hp.
Qed.

Lemma filter_none {T : Type} (P : T -> Prop) `{forall a, Decision (P a)}
    (l : list T) :
  Forall (fun a => ~ P a) l -> filter P l = [].
Proof.
  induction 1 as [|a l Ha _ IH]; [done|]. by rewrite filter_cons_False.
Qed.

Lemma NoDup_count {T : Type} `{EqDecision T} (l : list T) (a : T) :
  NoDup l -> (length (filter (fun b => b = a) l) <= 1)%nat.
Proof.
  induction 1 as [|b l Hb _ IH]; [simpl; lia|].
  rewrite filter_cons. case_decide as Heq; [subst b|done]. simpl.
  rewrite filter_none; [done|].
  apply Forall_forall. by intros c Hc ->.
Qed.

(** X4. A region is pushed at most twice: at most once by the entry loop,
    which pushes regions of the first strip only, and at most once as a
    neighbour in the [while] loop. A region outside the first strip is
    pushed at most once. *)
Theorem pushed_at_most_twice (sp : Speleo.t) (rows : list (list bool))
    (st' : Speleo.t * scout) :
  Speleo.cave sp = cave_of rows ->
  square rows = true ->
  Speleo.traverse sp = Ok st' ->
  (exists loop entry,
     history st'.2 = loop ++ entry /\
     Forall (fun e => origin e = None /\ Region.y (pushed e) = ENTRY) entry /\
     Forall (fun e => origin e <> None) loop /\
     NoDup ((fun e => Region.pos (pushed e)) <$> entry) /\
     NoDup ((fun e => Region.pos (pushed e)) <$> loop)) /\
  (forall p, (length (filter (fun q => q = p) (pushed_positions st'.2)) <= 2)%nat) /\
  (forall p, p.1 <> ENTRY ->
     (length (filter (fun q => q = p) (pushed_positions st'.2)) <= 1)%nat).
Proof.
  intros Hc Hsq Htr.
  assert (well_formed (Speleo.cave sp)) as Hwf
    by (rewrite Hc; by apply cave_of_well_formed).
  destruct (traverse_run sp Hwf) as (strip & st2 & Hstrip & _ & Htr2 & Hrun).
  assert (st2 = st') as -> by congruence.
  destruct (run_fresh _ _ Hrun Hwf) as (loop & Hh & Horig & Hnd & _).
  destruct (seeds_NoDup _ strip Hwf Hstrip) as [Hsnd Hsy]. simpl in *.
  assert (Forall (fun e => origin e = None /\ Region.y (pushed e) = ENTRY)
            (Pushed None <$> reverse (seeds strip))) as Hentry.
  { apply Forall_fmap. eapply Forall_impl; [exact Hsy|]. done. }
  assert (NoDup ((fun e => Region.pos (pushed e)) <$>
                 (Pushed None <$> reverse (seeds strip)))) as Hend.
  { by rewrite <- list_fmap_compose. }
  split.
  { exists loop, (Pushed None <$> reverse (seeds strip)). done. }
  unfold pushed_positions. rewrite Hh, fmap_app.
  split; intros p; rewrite filter_app, length_app.
  - pose proof (NoDup_count _ p Hnd). pose proof (NoDup_count _ p Hend). lia.
  - intros Hp. pose proof (NoDup_count _ p Hnd).
    assert (filter (fun q => q = p)
              ((fun e => Region.pos (pushed e)) <$>
               (Pushed None <$> reverse (seeds strip))) = []) as ->; [|simpl; lia].
    apply filter_none. apply Forall_forall.
    intros q (e & -> & He)%list_elem_of_fmap Heq.
    eapply Forall_forall in Hentry as [_ Hy]; [|exact He].
    apply Hp. rewrite <- Heq. done.
Qed.

Lemma pushed_at_most_twice_witness :
  exists st',
    Speleo.traverse (speleo_on A (cave_of (open_rows 2))) = Ok st' /\
    (length (filter (fun q => q = (0, 0)%Z) (pushed_positions st'.2)) <= 2)%nat.
Proof.
  eexists. split; [vm_compute; reflexivity|].
  refine (proj1 (proj2 (pushed_at_most_twice (speleo_on A (cave_of (open_rows 2)))
                          (open_rows 2) _ eq_refl eq_refl _)) (0, 0)%Z).
  vm_compute. reflexivity.
Defined.

(** ** Reading the map *)

(** The rule for what a counting loop has done when it returns, and for
    the ways it can fail. *)
Lemma for_int_partial {St : Type} (Inv : Z -> St -> Prop) (n : Z)
    (body : Z -> St -> result St) (s : St) :
  0 <= n -> Inv 0 s ->
  (forall i s s1, 0 <= i < n -> Inv i s -> body i s = Ok s1 -> Inv (Z.succ i) s1) ->
  (forall i s, 0 <= i < n -> Inv i s -> body i s <> OutOfFuel) ->
  for_int n body s <> OutOfFuel /\
  forall s', for_int n body s = Ok s' -> Inv n s'.
Proof.
  intros Hn H0 Hstep Hfuel.
  assert (forall k : nat, Z.of_nat k <= n ->
            for_int (Z.of_nat k) body s <> OutOfFuel /\
            forall s', for_int (Z.of_nat k) body s = Ok s' -> Inv (Z.of_nat k) s') as H.
  { induction k as [|k IH]; intros Hk.
    - rewrite for_int_nonpos by done. split; [done|]. by intros s' [= <-].
    - destruct IH as [IH1 IH2]; [lia|].
      rewrite Nat2Z.inj_succ, for_int_succ by lia.
      destruct (for_int (Z.of_nat k) body s) as [s1| |]; simpl; [|done..].
      split.
      + apply Hfuel; [lia|by apply IH2].
      + intros s' Hs'. eapply Hstep; [|by apply IH2|done]. lia. }
  destruct (H (Z.to_nat n)) as [H1 H2]; [lia|].
  rewrite Z2Nat.id in * by done. done.
Qed.

Lemma read_strip (y n : Z) (bs cin : list bool) :
  0 <= y -> Z.of_nat (length bs) = n ->
  for_int n
    (fun x '(strip, cin) =>
       '(tmp, cin) ← Speleo.read_bool cin;
       Ok (strip ++ [Region.new y x tmp], cin))
    ([], bs ++ cin) = Ok (strip_of (Z.to_nat y) bs, cin).
Proof.
  intros Hy Hn.
  destruct (for_int_invariant
    (fun k (st : list Region.t * list bool) =>
       st = (strip_of (Z.to_nat y) (take (Z.to_nat k) bs),
             drop (Z.to_nat k) bs ++ cin))
    n
    (fun x '(strip, cin) =>
       '(tmp, cin) ← Speleo.read_bool cin;
       Ok (strip ++ [Region.new y x tmp], cin))
    ([], bs ++ cin)) as (st & Hfor & ->).
  - lia.
  - done.
  - intros i st Hi ->.
    destruct (lookup_lt_is_Some_2 bs (Z.to_nat i)) as [b Hb]; [lia|].
    rewrite (drop_S _ b) by done. simpl. eexists. split; [done|].
    rewrite Z2Nat.inj_succ, (take_S_r _ _ b) by (done || lia).
    rewrite strip_of_snoc, length_take, Nat.min_l, !Z2Nat.id by lia. done.
  - rewrite Hfor. rewrite take_ge, drop_ge by lia. done.
Qed.

Lemma read_strip_consumes (y n : Z) (cin : list bool) :
  0 <= n ->
  let loop :=
    for_int n
      (fun x '(strip, cin) =>
         '(tmp, cin) ← Speleo.read_bool cin;
         Ok (strip ++ [Region.new y x tmp], cin))
      ([], cin) in
  loop <> OutOfFuel /\
  forall st, loop = Ok st -> Z.of_nat (length cin) = Z.of_nat (length st.2) + n.
Proof.
  intros Hn. simpl.
  apply (for_int_partial
    (fun k (st : list Region.t * list bool) =>
       Z.of_nat (length cin) = Z.of_nat (length st.2) + k)).
  - done.
  - simpl. lia.
  - intros i [strip c] [strip1 c1] Hi Hinv. simpl in *.
    destruct c as [|b c]; [done|]. simpl. intros [= <- <-]. simpl in *. lia.
  - intros i [strip c] Hi Hinv. simpl. by destruct c.
Qed.

Lemma ReadMapFromConsole_consumes (sp : Speleo.t) (cin : list bool) :
  0 <= Map.size (Speleo.cave sp) ->
  Speleo.ReadMapFromConsole sp cin <> OutOfFuel /\
  forall st, Speleo.ReadMapFromConsole sp cin = Ok st ->
    Z.of_nat (length cin) =
    Z.of_nat (length st.2) + Map.size (Speleo.cave sp) * Map.size (Speleo.cave sp).
Proof.
  intros Hn. set (n := Map.size (Speleo.cave sp)) in *.
  unfold Speleo.ReadMapFromConsole. fold n.
  match goal with
  | |- for_int n ?body ?s <> _ /\ _ =>
      destruct (for_int_partial
        (fun k (st : Speleo.t * list bool) =>
           Map.size (Speleo.cave st.1) = n /\
           Z.of_nat (length cin) = Z.of_nat (length st.2) + k * n)
        n body s) as [Hf Hc]
  end; [| | | |split; [done|]; intros st Hst; by apply Hc in Hst as [_ ?]].
  - done.
  - simpl. split; [done|lia].
  - intros i [sp1 c1] [sp2 c2] Hi [Hsz Hinv]. simpl in *. rewrite Hsz.
    destruct (read_strip_consumes i n c1 Hn) as [_ Hc]. simpl in Hc.
    destruct (for_int n _ ([], c1)) as [[strip c]| |]; simpl; [|done..].
    intros [= <- <-]. simpl. split; [done|].
    specialize (Hc _ eq_refl). simpl in Hc. lia.
  - intros i [sp1 c1] Hi [Hsz Hinv]. simpl in *. rewrite Hsz.
    destruct (read_strip_consumes i n c1 Hn) as [Hf _]. simpl in Hf.
    by destruct (for_int n _ ([], c1)) as [[strip c]| |].
Qed.

(** X12. [ReadMapFromConsole] on an empty map of side [n] takes the first
    [n * n] values of the input, line by line, and builds the cave of that
    matrix, every region at its coordinates and none discovered; the rest
    of the input is left unread. With fewer than [n * n] values it reads
    past the end of the input. The constructor in mode [A] returns the
    object holding that cave. *)
Theorem ReadMapFromConsole_reads (sp : Speleo.t) (rows : list (list bool))
    (rest : list bool) :
  Map.map (Speleo.cave sp) = [] ->
  Map.size (Speleo.cave sp) = Z.of_nat (length rows) ->
  Forall (fun strip => length strip = length rows) rows ->
  Speleo.ReadMapFromConsole sp (concat rows ++ rest) =
    Ok (Speleo.set_cave sp (cave_of rows), rest) /\
  (forall cin, (length cin < length rows * length rows)%nat ->
     Speleo.ReadMapFromConsole sp cin = Undefined) /\
  Speleo.new A (Z.of_nat (length rows)) 0%float 0 (concat rows ++ rest) =
    Ok {| Speleo.exec_mode := A; Speleo.sample_size := 0;
          Speleo.accessibility := 0%float; Speleo.cave := cave_of rows;
          Speleo.successful_attempts := 0 |}.
Proof.
  assert (forall sp0, Map.map (Speleo.cave sp0) = [] ->
    Map.size (Speleo.cave sp0) = Z.of_nat (length rows) ->
    Forall (fun strip => length strip = length rows) rows ->
    Speleo.ReadMapFromConsole sp0 (concat rows ++ rest) =
      Ok (Speleo.set_cave sp0 (cave_of rows), rest)) as Hread.
  { clear sp. intros sp Hmap Hsize Hall.
    set (n := length rows) in *.
    unfold Speleo.ReadMapFromConsole. rewrite Hsize.
    destruct (for_int_invariant
      (fun k (st : Speleo.t * list bool) =>
         st = (Speleo.set_cave sp
                 {| Map.map := strips_of (take (Z.to_nat k) rows);
                    Map.size := Z.of_nat n |},
               concat (drop (Z.to_nat k) rows) ++ rest))
      (Z.of_nat n)
      (fun y '(sp, cin) =>
         '(strip, cin) ← for_int (Map.size (Speleo.cave sp))
            (fun x '(strip, cin) =>
               '(tmp, cin) ← Speleo.read_bool cin;
               Ok (strip ++ [Region.new y x tmp], cin))
            ([], cin);
         Ok (Speleo.set_cave sp (Speleo.push_strip (Speleo.cave sp) strip), cin))
      (sp, concat rows ++ rest)) as (st & Hfor & ->).
    - lia.
    - simpl. f_equal. destruct sp as [m ss a [cm cn] k]. simpl in *. by subst.
    - intros i st Hi ->.
      destruct (lookup_lt_is_Some_2 rows (Z.to_nat i)) as [bs Hbs]; [lia|].
      assert (length bs = n) as Hlen
        by (eapply Forall_lookup_1 in Hall; [|exact Hbs]; done).
      rewrite (drop_S _ bs) by done. simpl. rewrite <- app_assoc.
      rewrite (read_strip i (Z.of_nat n) bs) by lia. simpl.
      eexists. split; [done|]. f_equal.
      + unfold Speleo.set_cave, Speleo.push_strip. simpl.
        rewrite Z2Nat.inj_succ, (take_S_r _ _ bs) by (done || lia).
        rewrite strips_of_snoc, length_take, Nat.min_l by lia. done.
      + by rewrite Z2Nat.inj_succ by lia.
    - rewrite Hfor, Nat2Z.id, take_ge, drop_ge by lia. simpl. done. }
  intros Hmap Hsize Hall. split; [by apply Hread|]. split.
  - intros cin Hlen.
    destruct (ReadMapFromConsole_consumes sp cin) as [Hf Hc]; [lia|].
    destruct (Speleo.ReadMapFromConsole sp cin) as [st| |]; [|done..].
    specialize (Hc _ eq_refl). rewrite Hsize in Hc. nia.
  - unfold Speleo.new. rewrite Hread by done. done.
Qed.

Lemma ReadMapFromConsole_reads_witness :
  Speleo.ReadMapFromConsole (speleo_on A (Map.Build [] 2))
    (concat [[false; true]; [true; false]] ++ [true]) =
  Ok (speleo_on A (cave_of [[false; true]; [true; false]]), [true]).
Proof.
  refine (proj1 (ReadMapFromConsole_reads (speleo_on A (Map.Build [] 2))
                   [[false; true]; [true; false]] [true] eq_refl eq_refl _)).
  repeat constructor.
Defined.


(** ** Generating the map *)

Lemma draws_app `{RandomEngine G} (q : float) (a b : nat) (g : G) :
  draws q (a + b) g =
  ((draws q a g).1 ++ (draws q b (draws q a g).2).1, (draws q b (draws q a g).2).2).
Proof.
  revert g. induction a as [|a IH]; intros g; simpl.
  - by destruct (draws q b g).
  - destruct (Bernouilli q g) as [b0 g0]. rewrite IH.
    by destruct (draws q a g0).
Qed.

Lemma length_draws `{RandomEngine G} (q : float) (k : nat) (g : G) :
  length (draws q k g).1 = k.
Proof.
  revert g. induction k as [|k IH]; intros g; simpl; [done|].
  destruct (Bernouilli q g) as [b g0]. specialize (IH g0).
  destruct (draws q k g0). simpl in *. by rewrite IH.
Qed.

Lemma generate_strip_draws `{RandomEngine G} (q : float) (n y : Z) (g : G) :
  0 <= n -> 0 <= y ->
  for_int n
    (fun x '(strip, g) =>
       let (b, g) := Bernouilli q g in
       Ok (strip ++ [Region.new y x b], g))
    ([], g) =
  Ok (strip_of (Z.to_nat y) (draws q (Z.to_nat n) g).1, (draws q (Z.to_nat n) g).2).
Proof.
  intros Hn Hy.
  destruct (for_int_invariant
    (fun k (st : list Region.t * G) =>
       st = (strip_of (Z.to_nat y) (draws q (Z.to_nat k) g).1,
             (draws q (Z.to_nat k) g).2))
    n
    (fun x '(strip, g) =>
       let (b, g) := Bernouilli q g in
       Ok (strip ++ [Region.new y x b], g))
    ([], g)) as (st & Hfor & ->); [done|done| |done].
  intros i st Hi ->.
  rewrite Z2Nat.inj_succ by lia.
  replace (S (Z.to_nat i)) with (Z.to_nat i + 1)%nat by lia.
  rewrite draws_app. pose proof (length_draws q (Z.to_nat i) g) as Hlen.
  destruct (draws q (Z.to_nat i) g) as [bs g1]. simpl in *.
  destruct (Bernouilli q g1) as [b g2]. simpl.
  eexists. split; [done|].
  rewrite strip_of_snoc, Hlen, !Z2Nat.id by lia. done.
Qed.

(** X11. [GenerateMap] on an empty map of side [n] makes [n * n] calls
    [Bernouilli(1 - accessibility)] and lays their outcomes out line by
    line: the result is the cave of an [n] by [n] matrix, every region at
    its coordinates and none discovered, and well formed when [n >= 1]. *)
Theorem GenerateMap_draws `{RandomEngine G} (sp : Speleo.t) (g : G) :
  Map.map (Speleo.cave sp) = [] ->
  0 <= Map.size (Speleo.cave sp) ->
  let n := Z.to_nat (Map.size (Speleo.cave sp)) in
  let q := (1 - Speleo.accessibility sp)%float in
  exists rows,
    Speleo.GenerateMap sp g =
      Ok (Speleo.set_cave sp (cave_of rows), (draws q (n * n) g).2) /\
    length rows = n /\
    Forall (fun strip => length strip = n) rows /\
    concat rows = (draws q (n * n) g).1 /\
    (1 <= n -> well_formed (cave_of rows))%nat /\
    (forall i j r, Map.get (cave_of rows) i j = Some r -> Region.discovered r = false).
Proof.
  intros Hmap Hsize n q. set (m := Map.size (Speleo.cave sp)) in *.
  unfold Speleo.GenerateMap. fold m. fold q.
  destruct (for_int_invariant
    (fun k (st : Speleo.t * G) =>
       exists rows,
         st = (Speleo.set_cave sp {| Map.map := strips_of rows; Map.size := m |},
               (draws q (Z.to_nat k * n) g).2) /\
         length rows = Z.to_nat k /\
         Forall (fun strip => length strip = n) rows /\
         concat rows = (draws q (Z.to_nat k * n) g).1)
    m
    (fun y '(sp, g) =>
       '(strip, g) ← for_int (Map.size (Speleo.cave sp))
          (fun x '(strip, g) =>
             let (b, g) := Bernouilli (1 - Speleo.accessibility sp)%float g in
             Ok (strip ++ [Region.new y x b], g))
          ([], g);
       Ok (Speleo.set_cave sp (Speleo.push_strip (Speleo.cave sp) strip), g))
    (sp, g)) as (st & Hfor & rows & -> & Hlen & Hall & Hcat).
  - done.
  - exists []. simpl. split; [|done].
    f_equal. destruct sp as [md ss a [cm cn] k]. simpl in *. by subst.
  - intros i st Hi (rows & -> & Hlen & Hall & Hcat). simpl.
    fold q. rewrite (generate_strip_draws q m i) by lia. simpl. fold n.
    eexists. split; [done|].
    set (g1 := (draws q (Z.to_nat i * n) g).2) in *.
    exists (rows ++ [(draws q n g1).1]).
    replace (Z.to_nat (Z.succ i) * n)%nat with (Z.to_nat i * n + n)%nat by lia.
    rewrite draws_app. fold g1. simpl. split; [|split; [|split]].
    + f_equal. unfold Speleo.set_cave, Speleo.push_strip. simpl.
      by rewrite strips_of_snoc, Hlen.
    + rewrite length_app. simpl. lia.
    + apply Forall_app. split; [done|]. constructor; [|done].
      apply length_draws.
    + rewrite concat_app, Hcat. simpl. by rewrite app_nil_r.
  - exists rows. fold n in Hlen, Hcat |- *. rewrite Hfor.
    split; [|split; [done|split; [done|split; [done|split]]]].
    + f_equal. f_equal. unfold cave_of. fold strip_of. fold (strips_of rows).
      rewrite Hlen. unfold n. by rewrite Z2Nat.id.
    + intros Hn. apply cave_of_well_formed, square_spec.
      split; [destruct rows; [simpl in *; lia|done]|].
      eapply Forall_impl; [exact Hall|]. intros strip. simpl. lia.
    + apply cave_of_fresh.
Qed.

Lemma GenerateMap_draws_witness :
  exists rows,
    Speleo.GenerateMap (H := cycle_engine)
      (Speleo.Build B 1 0.5%float (Map.Build [] 2) 0) 0%nat =
      Ok (Speleo.Build B 1 0.5%float (cave_of rows) 0, 4%nat) /\
    concat rows = [true; false; false; true].
Proof.
  destruct (GenerateMap_draws (H := cycle_engine)
              (Speleo.Build B 1 0.5%float (Map.Build [] 2) 0) 0%nat)
    as (rows & Hgen & _ & _ & Hcat & _); [reflexivity|simpl; lia|].
  exists rows. split; [exact Hgen|exact Hcat].
Defined.

(** ** Prompting *)


(** ** The order of exploration *)

Lemma scout_if_step (cond : bool) (from : Z * Z) (i j : Z) (c c' : Map.t)
    (s s' : scout) :
  Speleo.scout_if cond from i j (c, s) = Ok (c', s') ->
  (cond = false -> Map.get c i j = None) ->
  regions_to_scout s' = option_list (scouted c (i, j)) ++ regions_to_scout s /\
  forall i' j', (i', j') <> (i, j) -> Map.get c' i' j' = Map.get c i' j'.
Proof.
  unfold Speleo.scout_if, scouted. simpl. destruct cond.
  - intros (r & Hget & [(Hr & -> & ->)|(Hr & -> & ->)])%ScoutRegion_ref_cases _;
      rewrite Hget; simpl; rewrite Hr; simpl; (split; [done|]); [|done].
    intros i' j' Hp. apply get_Some in Hget as (? & ? & _).
    apply get_set_ne; [done..|]. congruence.
  - intros [= <- <-] Hnone. by rewrite Hnone.
Qed.

Ltac pair_neq :=
  let H := fresh in
  intros H; pose proof (f_equal fst H); pose proof (f_equal snd H);
  simpl in *; lia.

(** X6. A pass of the loop that pops the region at [(y, x)] pushes its
    scoutable neighbours in the order north, east, west, south, so that the
    south neighbour, when it is scoutable, is the next region popped, then
    the west one, the east one and the north one. Whether a neighbour is
    scoutable is read in the cave as it is when the pass begins. *)
Theorem south_west_first (sp sp1 : Speleo.t) (region : Region.t) (s s1 : scout) :
  well_formed (Speleo.cave sp) ->
  Speleo.iteration sp region s = Ok (Speleo.Continue, (sp1, s1)) ->
  let c := Speleo.cave sp in
  let y := Region.y region in
  let x := Region.x region in
  regions_to_scout s1 =
    option_list (scouted c (y + 1, x)) ++
    option_list (scouted c (y, x - 1)) ++
    option_list (scouted c (y, x + 1)) ++
    option_list (scouted c (y - 1, x)) ++
    tail (regions_to_scout s).
Proof.
  intros Hwf Hit c y x.
  apply iteration_continue in Hit
    as ([c1 s1'] & [c2 s2] & [c3 s3] & [c4 s4] & H1 & H2 & H3 & H4 & Heq).
  fold y x c in H1, H2, H3, H4. injection Heq as _ ->. simpl.
  assert (forall i j, ~ (0 <= i < Map.size c /\ 0 <= j < Map.size c) ->
            Map.get c i j = None) as Hout.
  { intros i j Hij. destruct (Map.get c i j) as [r|] eqn:Hget; [|done].
    destruct Hwf as (_ & _ & _ & Hpos). destruct (Hpos _ _ _ Hget) as (_ & ? & ?).
    apply get_Some in Hget as (? & ? & _). unfold c in *. lia. }
  apply scout_if_step in H1 as [E1 G1];
    [|intros ?%bool_decide_eq_false; apply Hout; lia].
  assert (Map.get c1 y (x + 1) = Map.get c y (x + 1)) as Q2.
  { apply G1. pair_neq. }
  apply scout_if_step in H2 as [E2 G2];
    [|intros ?%bool_decide_eq_false; rewrite Q2; apply Hout; lia].
  assert (Map.get c2 y (x - 1) = Map.get c y (x - 1)) as Q3.
  { rewrite G2, G1; [done| |]; pair_neq. }
  apply scout_if_step in H3 as [E3 G3];
    [|intros ?%bool_decide_eq_false; rewrite Q3; apply Hout; lia].
  assert (Map.get c3 (y + 1) x = Map.get c (y + 1) x) as Q4.
  { rewrite G3, G2, G1; [done| | |]; pair_neq. }
  apply scout_if_step in H4 as [E4 G4];
    [|intros ?%bool_decide_eq_false; rewrite Q4; apply Hout; lia].
  rewrite E4, E3, E2, E1. unfold scouted. simpl. by rewrite Q4, Q3, Q2.
Qed.

Lemma south_west_first_witness :
  exists sp1 s1,
    Speleo.iteration (speleo_on A (cave_of (open_rows 3)))
      (Region.mark (Region.new 1 1 false))
      {| regions_to_scout := [Region.mark (Region.new 1 1 false)]; history := [] |} =
      Ok (Speleo.Continue, (sp1, s1)) /\
    Region.pos <$> regions_to_scout s1 = [(2, 1); (1, 0); (1, 2); (0, 1)].
Proof.
  destruct (Speleo.iteration (speleo_on A (cave_of (open_rows 3)))
              (Region.mark (Region.new 1 1 false))
              {| regions_to_scout := [Region.mark (Region.new 1 1 false)];
                 history := [] |})
    as [[[] [sp1 s1]]| |] eqn:Hit; try (vm_compute in Hit; discriminate Hit).
  exists sp1, s1. split; [reflexivity|].
  rewrite (south_west_first (speleo_on A (cave_of (open_rows 3))) _ _ _ _
             (cave_of_well_formed (open_rows 3) eq_refl) Hit).
  reflexivity.
Defined.
